(** * CodeTimeMachine: session store, reconstruction and playback

    A shallow embedding of the recording store ([database.js], class
    [DatabaseWrapper]), of the file-backed store of [ctm.js] (class
    [FileDatabase]), of the recorder's change handler ([daemon.js]) and of
    the WebSocket playback of [server.js] (class [PlaybackServer]),
    followed by the properties of the timeline specification that were
    checked against them.

    Conventions.
    - [Date.now()] is an input of every operation that reads the clock
      (argument [now], milliseconds).
    - A SQLite table is the list of its rows in rowid order together with
      the last id handed out by [AUTOINCREMENT].
    - JavaScript strings whose length or encoding matters (file contents)
      are sequences of UTF-16 code units; identifiers that are only compared
      (paths, event types) are plain strings. *)

From Stdlib Require Import ZArith QArith Qround Lia Lqa.
From stdpp Require Import base option list sorting strings gmap pretty.

Local Open Scope Z_scope.

(** ** JavaScript strings and their UTF-8 encoding *)

Module JS.

(** A string value: its UTF-16 code units. *)
Abbreviation jsstring := (list N).

(** The code units of an ASCII literal. *)
Definition lit (s : string) : jsstring :=
  (λ a, Ascii.N_of_ascii a) <$> String.list_ascii_of_string s.

Definition is_high_surrogate (c : N) : bool :=
  ((0xD800 <=? c) && (c <=? 0xDBFF))%N.

Definition is_low_surrogate (c : N) : bool :=
  ((0xDC00 <=? c) && (c <=? 0xDFFF))%N.

(** U+FFFD, which the encoder writes for a surrogate without its pair. *)
Definition replacement : list N := [0xEF; 0xBF; 0xBD]%N.

(** [Buffer.from(s, 'utf8')]: the bytes hashed by
    [hash.update(s, 'utf8')]. *)
Fixpoint utf8_encode (s : jsstring) : list N :=
  match s with
  | [] => []
  | c :: s' =>
      if (c <? 0x80)%N then c :: utf8_encode s'
      else if (c <? 0x800)%N then
        [0xC0 + c / 64; 0x80 + c mod 64]%N ++ utf8_encode s'
      else if is_high_surrogate c then
        match s' with
        | d :: s'' =>
            if is_low_surrogate d then
              let cp := (0x10000 + (c - 0xD800) * 0x400 + (d - 0xDC00))%N in
              [0xF0 + cp / 262144; 0x80 + (cp / 4096) mod 64;
               0x80 + (cp / 64) mod 64; 0x80 + cp mod 64]%N
                ++ utf8_encode s''
            else replacement ++ utf8_encode s'
        | [] => replacement
        end
      else if is_low_surrogate c then replacement ++ utf8_encode s'
      else
        [0xE0 + c / 4096; 0x80 + (c / 64) mod 64; 0x80 + c mod 64]%N
          ++ utf8_encode s'
  end.

(** [Buffer.byteLength(s, 'utf8')], counted without building the bytes. *)
Fixpoint byteLength (s : jsstring) : Z :=
  match s with
  | [] => 0
  | c :: s' =>
      if (c <? 0x80)%N then 1 + byteLength s'
      else if (c <? 0x800)%N then 2 + byteLength s'
      else if is_high_surrogate c then
        match s' with
        | d :: s'' =>
            if is_low_surrogate d then 4 + byteLength s''
            else 3 + byteLength s'
        | [] => 3
        end
      else 3 + byteLength s'
  end.

(** The values [addFileSnapshot] may be handed as content, and
    [String(v)] on them. *)
Inductive value :=
| VString (s : jsstring)
| VUndefined
| VNull
| VBool (b : bool).

Definition String_ (v : value) : jsstring :=
  match v with
  | VString s => s
  | VUndefined => lit "undefined"
  | VNull => lit "null"
  | VBool true => lit "true"
  | VBool false => lit "false"
  end.

(** [typeof content === 'string' ? content : String(content)] *)
Definition cleanContent (content : value) : jsstring :=
  match content with
  | VString s => s
  | _ => String_ content
  end.

(** [s.substring(0, n)] for [0 <= n]. *)
Definition substring0 (n : Z) (s : jsstring) : jsstring :=
  take (Z.to_nat n) s.

(** [s.split('\n').length]: one more than the number of line feeds. *)
Definition line_count (s : jsstring) : Z :=
  1 + Z.of_nat (length (filter (λ c, c = 10%N) s)).

End JS.

(** ** The fragment of SQL the queries use *)

Module Sql.

Section OrderBy.
Context {A : Type} (le : A → A → bool).

(** Put [x] in front of the first row that does not sort before it. *)
Fixpoint insert_row (x : A) (l : list A) : list A :=
  match l with
  | [] => [x]
  | y :: l' => if le x y then x :: y :: l' else y :: insert_row x l'
  end.

(** [ORDER BY] on rows listed in rowid order.  Rows that tie on the
    key come out in rowid order, which is what SQLite yields for these
    queries (an index scan in rowid order and a stable sorter); SQL
    itself leaves the order of ties open. *)
Definition order_by (l : list A) : list A := foldr insert_row [] l.

(** [ORDER BY ... DESC LIMIT 1] on rows listed in rowid order: a row
    with the greatest key, the latest such row when several tie (the
    index on the key is walked backwards). *)
Definition last_by (l : list A) : option A :=
  foldl (λ best r,
           match best with
           | Some b => if le b r then Some r else Some b
           | None => Some r
           end) None l.
End OrderBy.

(** [a] occurs in [l] at an earlier position than [b]. *)
Definition before {A} (a b : A) (l : list A) : Prop :=
  ∃ l1 l2 l3, l = l1 ++ a :: l2 ++ b :: l3.

End Sql.

(** ** The SQLite-backed store ([DatabaseWrapper]) *)

Module DatabaseWrapper.
Import JS.

Record session_row := {
  session_id : Z;
  start_time : Z;
  end_time : option Z;
  project_path : string;
  git_branch : option string;
  git_commit : option string }.

Record event_row := {
  event_id : Z;
  ev_session : Z;
  ev_timestamp : Z;
  ev_type : string;
  ev_source : string;
  ev_data : string;
  ev_sequence : Z }.

Record snapshot_row := {
  snapshot_id : Z;
  snap_session : Z;
  snap_path : string;
  snap_timestamp : Z;
  content : jsstring;
  content_hash : string;
  size : Z }.

Record diff_row := {
  diff_id : Z;
  diff_session : Z;
  diff_path : string;
  diff_timestamp : Z;
  diff_data : string;
  line_start : Z;
  line_end : Z;
  chars_added : Z;
  chars_removed : Z }.

(** The tables the operations below touch.  Each [_seq] field is the
    last id [AUTOINCREMENT] handed out for its table. *)
Record database := {
  sessions : list session_row;
  sessions_seq : Z;
  events : list event_row;
  events_seq : Z;
  file_snapshots : list snapshot_row;
  file_snapshots_seq : Z;
  diffs : list diff_row;
  diffs_seq : Z }.

(** The database right after [createTables]. *)
Definition empty : database :=
  {| sessions := []; sessions_seq := 0;
     events := []; events_seq := 0;
     file_snapshots := []; file_snapshots_seq := 0;
     diffs := []; diffs_seq := 0 |}.

(** What [run] returns: [{ id: lastInsertRowid, changes }]. *)
Record run_result := { id : Z; changes : Z }.

Definition createSession (db : database) (now : Z)
    (projectPath : string) (gitBranch gitCommit : option string)
  : database * Z :=
  let startTime := now in
  let rowid := sessions_seq db + 1 in
  let row := {| session_id := rowid; start_time := startTime;
                end_time := None; project_path := projectPath;
                git_branch := gitBranch; git_commit := gitCommit |} in
  ({| sessions := sessions db ++ [row]; sessions_seq := rowid;
      events := events db; events_seq := events_seq db;
      file_snapshots := file_snapshots db;
      file_snapshots_seq := file_snapshots_seq db;
      diffs := diffs db; diffs_seq := diffs_seq db |}, rowid).

(** [UPDATE sessions SET end_time = ? WHERE id = ?] *)
Definition endSession (db : database) (now : Z) (sessionId : Z) : database :=
  let endTime := now in
  let upd (s : session_row) :=
    if bool_decide (session_id s = sessionId) then
      {| session_id := session_id s; start_time := start_time s;
         end_time := Some endTime; project_path := project_path s;
         git_branch := git_branch s; git_commit := git_commit s |}
    else s in
  {| sessions := upd <$> sessions db; sessions_seq := sessions_seq db;
     events := events db; events_seq := events_seq db;
     file_snapshots := file_snapshots db;
     file_snapshots_seq := file_snapshots_seq db;
     diffs := diffs db; diffs_seq := diffs_seq db |}.

(** [addEvent(sessionId, type, source, data, sequence = 0)].  [data] is
    the text [JSON.stringify] yields for the payload; [sequence] is
    [None] when the caller leaves the argument out. *)
Definition addEvent (db : database) (now : Z) (sessionId : Z)
    (type source data : string) (sequence : option Z)
  : database * run_result :=
  let timestamp := now in
  let rowid := events_seq db + 1 in
  let row := {| event_id := rowid; ev_session := sessionId;
                ev_timestamp := timestamp; ev_type := type;
                ev_source := source; ev_data := data;
                ev_sequence := default 0 sequence |} in
  ({| sessions := sessions db; sessions_seq := sessions_seq db;
      events := events db ++ [row]; events_seq := rowid;
      file_snapshots := file_snapshots db;
      file_snapshots_seq := file_snapshots_seq db;
      diffs := diffs db; diffs_seq := diffs_seq db |},
   {| id := rowid; changes := 1 |}).

Definition addDiff (db : database) (now : Z) (sessionId : Z)
    (filePath diffData : string)
    (lineStart lineEnd charsAdded charsRemoved : Z)
  : database * run_result :=
  let timestamp := now in
  let rowid := diffs_seq db + 1 in
  let row := {| diff_id := rowid; diff_session := sessionId;
                diff_path := filePath; diff_timestamp := timestamp;
                diff_data := diffData; line_start := lineStart;
                line_end := lineEnd; chars_added := charsAdded;
                chars_removed := charsRemoved |} in
  ({| sessions := sessions db; sessions_seq := sessions_seq db;
      events := events db; events_seq := events_seq db;
      file_snapshots := file_snapshots db;
      file_snapshots_seq := file_snapshots_seq db;
      diffs := diffs db ++ [row]; diffs_seq := rowid |},
   {| id := rowid; changes := 1 |}).

Section WithHash.
(** [crypto.createHash('sha256').update(bytes).digest('hex')], a
    function of the runtime's library. *)
Variable sha256_hex : list N → string.

Definition addFileSnapshot (db : database) (now : Z) (sessionId : Z)
    (filePath : string) (content : value)
  : database * run_result :=
  let timestamp := now in
  let cleanContent := cleanContent content in
  let contentHash := sha256_hex (utf8_encode cleanContent) in
  let rowid := file_snapshots_seq db + 1 in
  let row := {| snapshot_id := rowid; snap_session := sessionId;
                snap_path := filePath; snap_timestamp := timestamp;
                content := cleanContent; content_hash := contentHash;
                size := byteLength cleanContent |} in
  ({| sessions := sessions db; sessions_seq := sessions_seq db;
      events := events db; events_seq := events_seq db;
      file_snapshots := file_snapshots db ++ [row];
      file_snapshots_seq := rowid;
      diffs := diffs db; diffs_seq := diffs_seq db |},
   {| id := rowid; changes := 1 |}).
End WithHash.

(** [ORDER BY timestamp, sequence] *)
Definition event_le (a b : event_row) : bool :=
  bool_decide (ev_timestamp a < ev_timestamp b)
  || (bool_decide (ev_timestamp a = ev_timestamp b)
      && bool_decide (ev_sequence a ≤ ev_sequence b)).

(** [SELECT * FROM events WHERE session_id = ? AND timestamp BETWEEN ?
    AND ? ORDER BY timestamp, sequence] *)
Definition getEventsInRange (db : database)
    (sessionId startTime endTime : Z) : list event_row :=
  Sql.order_by event_le
    (filter (λ e, ev_session e = sessionId
                  ∧ startTime ≤ ev_timestamp e ≤ endTime) (events db)).

(** [// TODO: Implement diff application logic]
    [// For now, return the base content] *)
Definition applyDiffs (content : jsstring) (diffs : list diff_row)
  : jsstring := content.

(** What [getFileStateAtTime] returns when a snapshot is found. *)
Record file_state := {
  snapshot : snapshot_row;
  fs_diffs : list diff_row;
  reconstructedContent : jsstring }.

Definition snapshot_matches (sessionId : Z) (filePath : string)
    (timestamp : Z) (r : snapshot_row) : Prop :=
  snap_session r = sessionId ∧ snap_path r = filePath
  ∧ snap_timestamp r ≤ timestamp.

Definition diff_matches (sessionId : Z) (filePath : string)
    (after upto : Z) (d : diff_row) : Prop :=
  diff_session d = sessionId ∧ diff_path d = filePath
  ∧ after < diff_timestamp d ∧ diff_timestamp d ≤ upto.

#[global] Instance snapshot_matches_dec sid p t r :
  Decision (snapshot_matches sid p t r).
Proof. unfold snapshot_matches. apply _. Defined.

#[global] Instance diff_matches_dec sid p a u d :
  Decision (diff_matches sid p a u d).
Proof. unfold diff_matches. apply _. Defined.

Definition getFileStateAtTime (db : database) (sessionId : Z)
    (filePath : string) (timestamp : Z) : option file_state :=
  (* ... WHERE session_id = ? AND file_path = ? AND timestamp <= ?
     ORDER BY timestamp DESC LIMIT 1 *)
  match Sql.last_by
          (λ a b, bool_decide (snap_timestamp a ≤ snap_timestamp b))
          (filter (snapshot_matches sessionId filePath timestamp)
                  (file_snapshots db)) with
  | None => None
  | Some snapshot =>
      (* ... AND timestamp > ? AND timestamp <= ? ORDER BY timestamp *)
      let diffs :=
        Sql.order_by
          (λ a b, bool_decide (diff_timestamp a ≤ diff_timestamp b))
          (filter (diff_matches sessionId filePath
                                (snap_timestamp snapshot) timestamp)
                  (diffs db)) in
      Some {| snapshot := snapshot;
              fs_diffs := diffs;
              reconstructedContent :=
                applyDiffs (content snapshot) diffs |}
  end.

End DatabaseWrapper.

(** ** The recorder's change handler ([CodeTimeMachineDaemon]) *)

Module Daemon.
Import JS DatabaseWrapper.

Definition textExtensions : list string :=
  [".txt"; ".js"; ".ts"; ".jsx"; ".tsx"; ".html"; ".css"; ".json"; ".md";
   ".yml"; ".yaml"; ".xml"; ".svg"; ".py"; ".java"; ".c"; ".cpp"; ".h";
   ".cs"; ".php"; ".rb"; ".go"; ".rs"; ".sh"; ".bat"; ".ps1"].

(** What the handler reads from the file system: [fs.statSync(p).size],
    [path.extname(p).toLowerCase()], the text of the file and its path
    relative to the project. *)
Record changed_file := {
  stats_size : Z;
  ext : string;
  file_content : jsstring;
  relativePath : string }.

Definition dquote : string := String (Ascii.ascii_of_nat 34) EmptyString.

(** [JSON.stringify({ action: 'change', size: ..., lines: ... })] *)
Definition change_data (content : jsstring) : string :=
  "{" +:+ dquote +:+ "action" +:+ dquote +:+ ":"
      +:+ dquote +:+ "change" +:+ dquote +:+ ","
      +:+ dquote +:+ "size" +:+ dquote +:+ ":"
      +:+ pretty (Z.of_nat (length content)) +:+ ","
      +:+ dquote +:+ "lines" +:+ dquote +:+ ":"
      +:+ pretty (line_count content) +:+ "}".

Section WithHash.
Variable sha256_hex : list N → string.

(** [handleFileChange(filePath)].  [now1] and [now2] are the clock
    readings of the event and of the snapshot; [dbId] is
    [sessionInfo.dbId]. *)
Definition handleFileChange (db : database) (now1 now2 : Z) (dbId : Z)
    (f : changed_file) : database :=
  if bool_decide (stats_size f > 100000) then db
  else if bool_decide (ext f ∉ textExtensions)
          && bool_decide (ext f ≠ "") then db
  else
    let content := file_content f in
    let db1 :=
      (addEvent db now1 dbId "file_edit" (relativePath f)
                (change_data content) None).1 in
    if bool_decide (Z.of_nat (length content) < 100000) then
      (addFileSnapshot sha256_hex db1 now2 dbId (relativePath f)
                       (VString content)).1
    else db1.
End WithHash.

End Daemon.

(** ** The file-backed store of [ctm.js] ([FileDatabase]) *)

Module FileDatabase.
Import JS.

Record snapshot := {
  timestamp : Z;
  content : jsstring;
  size : Z;
  lines : Z }.

Record file_entry := {
  snapshots : list snapshot;
  changes : Z }.

(** [this.data.files], keyed by path.  Paths are ordinary keys (none of
    the names every JavaScript object inherits). *)
Record data := { files : gmap string file_entry }.


(** [addFileSnapshot(filePath, content)]; [save()] writes [data] out as
    it is. *)
Definition addFileSnapshot (d : data) (now : Z) (filePath : string)
    (content : jsstring) : data :=
  let entry :=
    default {| snapshots := []; changes := 0 |} (files d !! filePath) in
  let pushed :=
    snapshots entry ++
      [ {| timestamp := now;
           content := substring0 50000 content;
           size := Z.of_nat (length content);
           lines := line_count content |} ] in
  {| files :=
       <[filePath := {| snapshots := pushed;
                        changes := changes entry + 1 |}]> (files d) |}.

End FileDatabase.

(** ** Playback over a WebSocket ([PlaybackServer]) *)

Module PlaybackServer.
Import DatabaseWrapper.

(** The messages the server sends. *)
Inductive message :=
| seek_result (timestamp : Z) (events : list event_row)
| event (e : event_row)
| playback_complete
| error (msg : string).

(** The variables the interval callback of [handlePlay] closes over. *)
Record closure := {
  cl_events : list event_row;
  cl_endTime : Z;
  cl_speed : Q;
  currentTime : Q;
  eventIndex : nat }.

(** A connection: what was sent on it so far, the intervals that send
    on it and are still scheduled (by handle), the next free handle, and
    the [playInterval] property. *)
Record websocket := {
  sent : list message;
  intervals : gmap nat closure;
  next_handle : nat;
  playInterval : option nat }.

Definition connect : websocket :=
  {| sent := []; intervals := ∅; next_handle := 0; playInterval := None |}.

Definition send (ws : websocket) (m : message) : websocket :=
  {| sent := sent ws ++ [m]; intervals := intervals ws;
     next_handle := next_handle ws; playInterval := playInterval ws |}.

Definition clearInterval (ws : websocket) (h : nat) : websocket :=
  {| sent := sent ws; intervals := delete h (intervals ws);
     next_handle := next_handle ws; playInterval := playInterval ws |}.

Definition handleSeek (db : database) (ws : websocket) (timestamp : Z)
  : websocket :=
  let events := getEventsInRange db 1 (timestamp - 1000) (timestamp + 1000) in
  send ws (seek_result timestamp events).

(** [SELECT * FROM sessions ORDER BY id DESC LIMIT 1] *)
Definition latest_session (db : database) : option session_row :=
  Sql.last_by (λ a b, bool_decide (session_id a ≤ session_id b))
              (sessions db).

(** [session.end_time || Date.now()] *)
Definition end_or_now (s : session_row) (now : Z) : Z :=
  match end_time s with
  | Some e => if bool_decide (e = 0) then now else e
  | None => now
  end.

(** [handlePlay(ws, startTime, speed = 1)] *)
Definition handlePlay (db : database) (now : Z) (ws : websocket)
    (startTime : Z) (speed : option Q) : websocket :=
  let speed := default 1%Q speed in
  match latest_session db with
  | None => send ws (error "No session found")
  | Some session =>
      let endTime := end_or_now session now in
      let events := getEventsInRange db (session_id session)
                                     startTime endTime in
      let h := next_handle ws in
      {| sent := sent ws;
         intervals :=
           <[h := {| cl_events := events; cl_endTime := endTime;
                     cl_speed := speed;
                     currentTime := inject_Z startTime;
                     eventIndex := 0 |}]> (intervals ws);
         next_handle := S h;
         playInterval := Some h |}
  end.

(** The events the [while] loop sends: those at the front of the not yet
    sent part whose timestamp is at most [currentTime]. *)
Fixpoint due (rest : list event_row) (currentTime : Q) : list event_row :=
  match rest with
  | e :: rest' =>
      if Qle_bool (inject_Z (ev_timestamp e)) currentTime
      then e :: due rest' currentTime
      else []
  | [] => []
  end.

(** One run of the interval callback with handle [h]; nothing happens
    when [h] is no longer scheduled. *)
Definition tick (h : nat) (ws : websocket) : websocket :=
  match intervals ws !! h with
  | None => ws
  | Some c =>
      let out := due (drop (eventIndex c) (cl_events c)) (currentTime c) in
      let eventIndex' := (eventIndex c + length out)%nat in
      let currentTime' := (currentTime c + 100 * cl_speed c)%Q in
      let ws1 :=
        {| sent := sent ws ++ (event <$> out);
           intervals :=
             <[h := {| cl_events := cl_events c;
                       cl_endTime := cl_endTime c;
                       cl_speed := cl_speed c;
                       currentTime := currentTime';
                       eventIndex := eventIndex' |}]> (intervals ws);
           next_handle := next_handle ws;
           playInterval := playInterval ws |} in
      if negb (Qle_bool currentTime' (inject_Z (cl_endTime c)))
         || bool_decide (length (cl_events c) ≤ eventIndex')%nat
      then send (clearInterval ws1 h) playback_complete
      else ws1
  end.

(** [n] consecutive runs of the callback with handle [h]. *)
Fixpoint ticks (n : nat) (h : nat) (ws : websocket) : websocket :=
  match n with
  | O => ws
  | S n' => ticks n' h (tick h ws)
  end.

(** [handlePause(ws)] *)
Definition handlePause (ws : websocket) : websocket :=
  match playInterval ws with
  | Some h =>
      {| sent := sent ws; intervals := delete h (intervals ws);
         next_handle := next_handle ws; playInterval := None |}
  | None => ws
  end.

(** The events among the messages sent. *)
Definition emitted (ws : websocket) : list event_row :=
  omap (λ m, match m with event e => Some e | _ => None end) (sent ws).

End PlaybackServer.

(** ** Histories of the store *)

Module History.
Import JS DatabaseWrapper.

(** One call of [addEvent]. *)
Record append := {
  ap_now : Z;
  ap_session : Z;
  ap_type : string;
  ap_source : string;
  ap_data : string;
  ap_sequence : option Z }.

Definition append_one (db : database) (a : append)
  : database * run_result :=
  addEvent db (ap_now a) (ap_session a) (ap_type a) (ap_source a)
           (ap_data a) (ap_sequence a).

(** A run of [addEvent] calls: the final database and what each call
    returned. *)
Fixpoint append_all (db : database) (reqs : list append)
  : database * list run_result :=
  match reqs with
  | [] => (db, [])
  | a :: reqs' =>
      let '(db1, r) := append_one db a in
      let '(db2, rs) := append_all db1 reqs' in
      (db2, r :: rs)
  end.


(** The calls a client of the store can make. *)
Inductive call :=
| CreateSession (now : Z) (projectPath : string)
                (gitBranch gitCommit : option string)
| EndSession (now sessionId : Z)
| AddEvent (a : append)
| AddFileSnapshot (now sessionId : Z) (filePath : string) (content : value)
| AddDiff (now sessionId : Z) (filePath diffData : string)
          (lineStart lineEnd charsAdded charsRemoved : Z).

Section WithHash.
Variable sha256_hex : list N → string.

Definition step (db : database) (c : call) : database :=
  match c with
  | CreateSession now p b g => (createSession db now p b g).1
  | EndSession now sid => endSession db now sid
  | AddEvent a => (append_one db a).1
  | AddFileSnapshot now sid p v =>
      (addFileSnapshot sha256_hex db now sid p v).1
  | AddDiff now sid p d ls le ca cr =>
      (addDiff db now sid p d ls le ca cr).1
  end.

(** The database a freshly created store holds after the calls [cs]. *)
Definition run (cs : list call) : database := foldl step empty cs.
End WithHash.

End History.

(** ** Recordings used as examples *)

Module Scenario.
Import JS DatabaseWrapper PlaybackServer History.

(** A store holding one session, started at 1000. *)
Definition fresh_session : database :=
  (createSession empty 1000 "/project" None None).1.




(** The recording of the tie-break scenario: a session, then two events
    at the same clock reading 5000, with the [sequence] arguments given. *)
Definition two_at_5000 (seq1 seq2 : option Z) : database :=
  (append_all fresh_session
     [ {| ap_now := 5000; ap_session := 1; ap_type := "edit";
          ap_source := "a.js"; ap_data := "{}"; ap_sequence := seq1 |};
       {| ap_now := 5000; ap_session := 1; ap_type := "create";
          ap_source := "b.js"; ap_data := "{}"; ap_sequence := seq2 |} ]).1.

Section WithHash.
Variable sha256_hex : list N → string.

(** The reconstruction scenario: a snapshot of [a.js] holding [x]
    taken at 1000, then a diff adding [y] at 1500 and a diff adding
    [z] at 2000. *)
Definition x_then_y_then_z : database :=
  run sha256_hex
    [ CreateSession 900 "/project" None None;
      AddFileSnapshot 1000 1 "a.js" (VString (lit "x"));
      AddDiff 1500 1 "a.js" "+y" 1 1 1 0;
      AddDiff 2000 1 "a.js" "+z" 1 1 1 0 ].

(** What a reader can check a snapshot row against. *)
Definition intact (r : snapshot_row) : Prop :=
  content_hash r = sha256_hex (utf8_encode (content r))
  ∧ size r = Z.of_nat (length (utf8_encode (content r))).
End WithHash.

(** A stand-in digest for running the definitions: the decimal digits of
    the number of bytes. *)
Definition length_digest (bytes : list N) : string :=
  pretty (N.of_nat (length bytes)).



Definition edit_at (now : Z) (source : string) (db : database) : database :=
  (addEvent db now 1 "file_edit" source "{}" None).1.

(** A session recorded from 1000 to 1150 with one edit at 1120. *)
Definition short_session : database :=
  endSession
    (edit_at 1120 "a.js" (createSession empty 1000 "/project" None None).1)
    1150 1.

(** Its playback from 1000 at speed 1. *)
Definition short_playing : websocket :=
  handlePlay short_session 9000 connect 1000 (Some 1%Q).

(** A session recorded from 1000 to 5000 with edits at 1000 and 3000. *)
Definition long_session : database :=
  endSession
    (edit_at 3000 "b.js"
       (edit_at 1000 "a.js"
          (createSession empty 1000 "/project" None None).1))
    5000 1.

(** Play from 1000, one run of the callback, pause, play again from
    1000 as the viewer's play button asks, one run of the new callback. *)
Definition play_pause_play : websocket :=
  let playing := tick 0 (handlePlay long_session 9000 connect 1000 None) in
  let paused := handlePause playing in
  tick 1 (handlePlay long_session 9000 paused 1000 None).

(** The same up to the pause. *)
Definition long_paused : websocket :=
  handlePause (tick 0 (handlePlay long_session 9000 connect 1000 None)).

End Scenario.

(** ** The other handlers of the recorder ([daemon.js]) *)

Module DaemonHandlers.
Import JS DatabaseWrapper Daemon.

(** [JSON.stringify({ action: 'add', size: ..., lines: ... })] *)
Definition add_data (content : jsstring) : string :=
  "{" +:+ dquote +:+ "action" +:+ dquote +:+ ":"
      +:+ dquote +:+ "add" +:+ dquote +:+ ","
      +:+ dquote +:+ "size" +:+ dquote +:+ ":"
      +:+ pretty (Z.of_nat (length content)) +:+ ","
      +:+ dquote +:+ "lines" +:+ dquote +:+ ":"
      +:+ pretty (line_count content) +:+ "}".

(** [JSON.stringify({ action: 'delete' })] *)
Definition delete_data : string :=
  "{" +:+ dquote +:+ "action" +:+ dquote +:+ ":"
      +:+ dquote +:+ "delete" +:+ dquote +:+ "}".

(** [handleFileDelete(filePath)], given the path relative to the
    project. *)
Definition handleFileDelete (db : database) (now : Z) (dbId : Z)
    (relativePath : string) : database :=
  (addEvent db now dbId "file_edit" relativePath delete_data None).1.

Section WithHash.
Variable sha256_hex : list N → string.

(** [handleFileAdd(filePath)] *)
Definition handleFileAdd (db : database) (now1 now2 : Z) (dbId : Z)
    (f : changed_file) : database :=
  if bool_decide (stats_size f > 100000) then db
  else if bool_decide (ext f ∉ textExtensions)
          && bool_decide (ext f ≠ "") then db
  else
    let content := file_content f in
    let db1 :=
      (addEvent db now1 dbId "file_edit" (relativePath f)
                (add_data content) None).1 in
    if bool_decide (Z.of_nat (length content) < 100000) then
      (addFileSnapshot sha256_hex db1 now2 dbId (relativePath f)
                       (VString content)).1
    else db1.

(** What the watcher reports, with the clock readings the handler
    takes. *)
Inductive notice :=
| Change (now1 now2 : Z) (f : changed_file)
| Add (now1 now2 : Z) (f : changed_file)
| Unlink (now : Z) (relativePath : string).

Definition handle (dbId : Z) (db : database) (n : notice) : database :=
  match n with
  | Change now1 now2 f => handleFileChange sha256_hex db now1 now2 dbId f
  | Add now1 now2 f => handleFileAdd db now1 now2 dbId f
  | Unlink now p => handleFileDelete db now dbId p
  end.

(** The database after the recorder handled the notices [ns] in turn. *)
Definition record (dbId : Z) (db : database) (ns : list notice) : database :=
  foldl (handle dbId) db ns.
End WithHash.

End DaemonHandlers.

(** ** The HTTP routes of [server.js] *)

Module Routes.
Import JS DatabaseWrapper.

(** A numeric request parameter as the handlers see it: left out or
    empty (falsy), present but not a number for [parseInt], or an
    integer. *)
Inductive number_param :=
| Absent
| NotANumber
| Number (n : Z).

(** [AND timestamp >= ?] for the parameter, when it is given.  A
    parameter that is not a number is bound as NULL, and no row compares
    with NULL. *)
Definition from_ok (start : number_param) (e : event_row) : bool :=
  match start with
  | Absent => true
  | NotANumber => false
  | Number n => bool_decide (n ≤ ev_timestamp e)
  end.

(** [AND timestamp <= ?] *)
Definition upto_ok (end_ : number_param) (e : event_row) : bool :=
  match end_ with
  | Absent => true
  | NotANumber => false
  | Number n => bool_decide (ev_timestamp e ≤ n)
  end.

(** [AND type = ?], when [type] is given and not empty. *)
Definition type_ok (type : option string) (e : event_row) : bool :=
  match type with
  | None => true
  | Some t => bool_decide (t = "") || bool_decide (ev_type e = t)
  end.

(** [GET /api/events?start=&end=&type=] *)
Definition api_events (db : database) (start end_ : number_param)
    (type : option string) : list event_row :=
  Sql.order_by event_le
    (filter (λ e, from_ok start e && upto_ok end_ e && type_ok type e)
            (events db)).

(** What the file routes answer. *)
Inductive response (A : Type) :=
| bad_request (error : string)
| json (body : A).
Arguments bad_request {A} error.
Arguments json {A} body.

(** [GET /api/file/:timestamp?path=], for a [:timestamp] that
    [parseInt] reads as the integer [timestamp]; the session id is the
    constant 1 of the source. *)
Definition api_file (db : database) (timestamp : Z)
    (filePath : option string) : response (option file_state) :=
  match filePath with
  | None => bad_request "File path required"
  | Some p =>
      if bool_decide (p = "") then bad_request "File path required"
      else json (getFileStateAtTime db 1 p timestamp)
  end.

(** [GET /api/file-content/:timestamp?file_path=], for a [:timestamp]
    that [parseInt] reads as the integer [timestamp]: the body is
    [{ snapshot }]. *)
Definition api_file_content (db : database) (timestamp : Z)
    (file_path : option string) : response (option snapshot_row) :=
  match file_path with
  | None => bad_request "file_path parameter required"
  | Some p =>
      if bool_decide (p = "") then bad_request "file_path parameter required"
      else
        json (Sql.last_by
                (λ a b, bool_decide (snap_timestamp a ≤ snap_timestamp b))
                (filter (λ r, snap_path r = p ∧ snap_timestamp r ≤ timestamp)
                        (file_snapshots db)))
  end.

(** One line of [GET /api/file-history/:file_path]. *)
Record history_entry := {
  h_timestamp : Z;
  h_content_hash : string;
  h_size : Z }.

(** [SELECT timestamp, content_hash, size FROM file_snapshots WHERE
    file_path = ? ORDER BY timestamp], for the decoded path. *)
Definition api_file_history (db : database) (file_path : string)
    : list history_entry :=
  (λ r, {| h_timestamp := snap_timestamp r;
           h_content_hash := content_hash r;
           h_size := size r |})
    <$> Sql.order_by
          (λ a b, bool_decide (snap_timestamp a ≤ snap_timestamp b))
          (filter (λ r, snap_path r = file_path) (file_snapshots db)).

(** One line of [GET /api/files]. *)
Record file_line := {
  fl_path : string;
  fl_changes : Z }.

(** [SELECT DISTINCT file_path, COUNT( * ) as changes FROM file_snapshots
    GROUP BY file_path ORDER BY file_path]: one group per path, in the
    byte order of the paths. *)
Definition api_files (db : database) : list file_line :=
  (λ p, {| fl_path := p;
           fl_changes :=
             Z.of_nat (length (filter (λ r, snap_path r = p)
                                      (file_snapshots db))) |})
    <$> Sql.order_by String.leb
          (remove_dups (snap_path <$> file_snapshots db)).

(** [GET /api/debug/snapshots]: [{ count, snapshots }], in time order. *)
Definition api_debug_snapshots (db : database) : Z * list snapshot_row :=
  let snapshots :=
    Sql.order_by (λ a b, bool_decide (snap_timestamp a ≤ snap_timestamp b))
                 (file_snapshots db) in
  (Z.of_nat (length snapshots), snapshots).

End Routes.

(** ** The HTTP routes of [ctm.js] ([WebServer]) *)

Module WebServer.
Import JS FileDatabase Routes.

(** [!timestamp || s.timestamp <= parseInt(timestamp)] *)
Definition upto (timestamp : number_param) (s : snapshot) : bool :=
  match timestamp with
  | Absent => true
  | NotANumber => false
  | Number n => bool_decide (FileDatabase.timestamp s ≤ n)
  end.

(** [GET /api/file-content?path=&timestamp=]: the snapshot sent, or
    [null]. *)
Definition api_file_content (d : data) (filePath : option string)
    (timestamp : number_param) : option snapshot :=
  match filePath with
  | None => None
  | Some p =>
      if bool_decide (p = "") then None
      else
        match files d !! p with
        | None => None
        | Some entry =>
            last (filter (λ s, upto timestamp s) (snapshots entry))
        end
  end.



End WebServer.

(** ** The command line of [ctm.js] *)

Module Cli.
Import Stdlib.Strings.Ascii.

(** What [parseArgs] stores under a key: [true] or a string. *)
Inductive arg_value :=
| Flag
| Text (s : string).

(** [arg.startsWith('-')] *)
Definition starts_with_dash (arg : string) : bool :=
  match arg with
  | String "-"%char _ => true
  | _ => false
  end.

(** [arg.replace(/^-+/, '')] *)
Fixpoint strip_dashes (arg : string) : string :=
  match arg with
  | String "-"%char rest => strip_dashes rest
  | _ => arg
  end.

(** Whether a stored value, or a missing one, counts as true. *)
Definition truthy (v : option arg_value) : bool :=
  match v with
  | Some Flag => true
  | Some (Text s) => negb (bool_decide (s = ""))
  | None => false
  end.

(** The variables of the loop.  Keys are ordinary property names. *)
Record parser := {
  args : gmap string arg_value;
  currentFlag : option string }.

(** One turn of the loop. *)
Definition parse_arg (st : parser) (arg : string) : parser :=
  if starts_with_dash arg then
    let flag := strip_dashes arg in
    {| args := <[flag := Flag]> (args st); currentFlag := Some flag |}
  else
    match currentFlag st with
    | Some flag =>
        if bool_decide (flag = "") then
          if negb (truthy (args st !! "command")) then
            {| args := <["command" := Text arg]> (args st);
               currentFlag := currentFlag st |}
          else if negb (truthy (args st !! "target")) then
            {| args := <["target" := Text arg]> (args st);
               currentFlag := currentFlag st |}
          else st
        else
          {| args := <[flag := Text arg]> (args st); currentFlag := None |}
    | None =>
        if negb (truthy (args st !! "command")) then
          {| args := <["command" := Text arg]> (args st);
             currentFlag := None |}
        else if negb (truthy (args st !! "target")) then
          {| args := <["target" := Text arg]> (args st);
             currentFlag := None |}
        else st
    end.

(** [parseArgs(argv)]: the loop starts at [argv[2]]. *)
Definition parseArgs (argv : list string) : gmap string arg_value :=
  args (foldl parse_arg {| args := ∅; currentFlag := None |} (drop 2 argv)).


End Cli.

(** ** Notions for stating the properties *)

Module Notions.
Import JS DatabaseWrapper History.

(** The ids of a table are 1, 2, ... up to its counter, in row order. *)
Definition numbered (ids : list Z) (counter : Z) : Prop :=
  0 ≤ counter ∧ ids = seqZ 1 counter.

(** The call stores a snapshot or a diff for this session and path. *)
Definition touches (sessionId : Z) (filePath : string) (c : call) : Prop :=
  match c with
  | AddFileSnapshot _ sid p _ => sid = sessionId ∧ p = filePath
  | AddDiff _ sid p _ _ _ _ _ => sid = sessionId ∧ p = filePath
  | _ => False
  end.




(** Every scheduled interval has a handle below the next free one. *)
Definition handles_fresh (ws : PlaybackServer.websocket) : Prop :=
  ∀ h, is_Some (PlaybackServer.intervals ws !! h) →
       (h < PlaybackServer.next_handle ws)%nat.


(** The notice is not a change or an addition of this path. *)
Definition leaves_alone (filePath : string) (n : DaemonHandlers.notice)
  : Prop :=
  match n with
  | DaemonHandlers.Change _ _ f => Daemon.relativePath f ≠ filePath
  | DaemonHandlers.Add _ _ f => Daemon.relativePath f ≠ filePath
  | DaemonHandlers.Unlink _ _ => True
  end.

End Notions.

(** * Properties *)

(** ** Ordering of query results *)

Module SqlFacts.
Import Sql.




Lemma before_app_r {A} (a b : A) l l' : before a b l → before a b (l ++ l').
Proof.
  intros (l1 & l2 & l3 & ->). exists l1, l2, (l3 ++ l').
  rewrite <- app_assoc. simpl. by rewrite <- app_assoc.
Qed.


Lemma filter_none {A} (P : A → Prop) `{!∀ x, Decision (P x)} l :
  (∀ x, x ∈ l → ¬ P x) → filter P l = [].
Proof.
  induction l as [|y l IH]; intros Hl; [done|].
  rewrite filter_cons_False by (apply Hl; left).
  apply IH. intros x Hx. apply Hl. by right.
Qed.

Section OrderBy.
Context {A : Type} (le : A → A → bool).

Lemma insert_row_perm x l : insert_row le x l ≡ₚ x :: l.
Proof.
  induction l as [|y l IH]; simpl; [done|].
  destruct (le x y); [done|]. rewrite IH. apply Permutation_swap.
Qed.

Lemma order_by_perm l : order_by le l ≡ₚ l.
Proof.
  induction l as [|x l IH]; simpl; [done|].
  unfold order_by in *. simpl. by rewrite insert_row_perm, IH.
Qed.

Lemma elem_of_order_by x l : x ∈ order_by le l ↔ x ∈ l.
Proof. by rewrite order_by_perm. Qed.

Lemma order_by_nil_inv l : order_by le l = [] → l = [].
Proof.
  intros H. apply Permutation_nil_r. rewrite <- H.
  symmetry. apply order_by_perm.
Qed.




(** The result is sorted, for a total and transitive key order. *)
Lemma insert_row_sorted x l :
  (∀ u v, le u v = false → le v u = true) →
  Sorted (λ u v, le u v = true) l →
  Sorted (λ u v, le u v = true) (insert_row le x l).
Proof.
  intros Htot. induction 1 as [|y l Hs IH Hhd]; simpl.
  - by repeat constructor.
  - destruct (le x y) eqn:Hxy.
    + constructor; [by constructor|]. by constructor.
    + constructor; [done|].
      destruct Hhd as [|z l Hyz]; simpl.
      * constructor. auto.
      * destruct (le x z); constructor; auto.
Qed.

Lemma order_by_sorted l :
  (∀ u v, le u v = false → le v u = true) →
  Sorted (λ u v, le u v = true) (order_by le l).
Proof.
  intros Htot. induction l as [|x l IH]; [constructor|].
  change (order_by le (x :: l)) with (insert_row le x (order_by le l)).
  by apply insert_row_sorted.
Qed.

(** [last_by] finds a row exactly when there is one, and then one no
    other row sorts after. *)
Lemma last_by_acc best l r :
  (∀ u, le u u = true) →
  (∀ u v, le u v = false → le v u = true) →
  (∀ u v w, le u v = true → le v w = true → le u w = true) →
  foldl (λ best r, match best with
                   | Some b => if le b r then Some r else Some b
                   | None => Some r
                   end) best l = Some r →
  (Some r = best ∨ r ∈ l)
  ∧ (∀ x, Some x = best ∨ x ∈ l → le x r = true).
Proof.
  intros Hrefl Htot Htrans. revert best.
  induction l as [|y l IH]; simpl; intros best Hr.
  - subst best. split; [by left|]. intros x [[= ->]|Hx]; [done|set_solver].
  - apply IH in Hr as [Hin Hmax]. split.
    + destruct Hin as [Hin|Hin]; [|right; by apply list_elem_of_further].
      destruct best as [b|]; [destruct (le b y)|]; injection Hin as ->;
        (by left) || (right; apply list_elem_of_here).
    + intros x [Hx|Hx].
      * subst best. destruct (le x y) eqn:Hxy.
        -- apply Htrans with y; [done|]. apply Hmax. by left.
        -- apply Hmax. by left.
      * apply elem_of_cons in Hx as [->|Hx]; [|apply Hmax; by right].
        destruct best as [b|]; [destruct (le b y) eqn:Hby|].
        -- apply Hmax. by left.
        -- apply Htrans with b; [by apply Htot|]. apply Hmax. by left.
        -- apply Hmax. by left.
Qed.

Lemma last_by_Some l r :
  (∀ u, le u u = true) →
  (∀ u v, le u v = false → le v u = true) →
  (∀ u v w, le u v = true → le v w = true → le u w = true) →
  last_by le l = Some r → r ∈ l ∧ ∀ x, x ∈ l → le x r = true.
Proof.
  intros Hrefl Htot Htrans Hr.
  apply last_by_acc in Hr as [Hin Hmax]; [|done..].
  split; [by destruct Hin|auto].
Qed.

Lemma last_by_None l : last_by le l = None ↔ l = [].
Proof.
  split; [|by intros ->].
  destruct l as [|x l]; [done|]. unfold last_by. simpl.
  assert (∀ l b, foldl (λ best r, match best with
                   | Some b => if le b r then Some r else Some b
                   | None => Some r
                   end) (Some b) l ≠ None) as Hne.
  { clear. intros l. induction l as [|y l IH]; intros b; simpl; [done|].
    destruct (le b y); apply IH. }
  intros H. by apply Hne in H.
Qed.
End OrderBy.

End SqlFacts.

(** ** The UTF-8 encoder on known code points *)

Module EncodingFacts.
Import JS.

(** U+0078, U+00E9, U+20AC, U+1F600 as a surrogate pair, and a high
    surrogate on its own. *)
Example utf8_encode_samples :
  utf8_encode (lit "x") = [0x78]%N
  ∧ utf8_encode [0xE9]%N = [0xC3; 0xA9]%N
  ∧ utf8_encode [0x20AC]%N = [0xE2; 0x82; 0xAC]%N
  ∧ utf8_encode [0xD83D; 0xDE00]%N = [0xF0; 0x9F; 0x98; 0x80]%N
  ∧ utf8_encode [0xD83D; 0x78]%N = [0xEF; 0xBF; 0xBD; 0x78]%N
  ∧ byteLength [0x78; 0xE9; 0x20AC; 0xD83D; 0xDE00]%N = 10.
Proof. by split_and!. Qed.

End EncodingFacts.

(** ** The event log *)

Module EventLogFacts.
Import JS Sql DatabaseWrapper History Scenario SqlFacts.










(** What a range query returns: the events of the session inside the
    range, each once, sorted by (timestamp, sequence). *)
Lemma getEventsInRange_perm db sessionId startTime endTime :
  getEventsInRange db sessionId startTime endTime
  ≡ₚ filter (λ e, ev_session e = sessionId
                  ∧ startTime ≤ ev_timestamp e ≤ endTime) (events db).
Proof. apply order_by_perm. Qed.

Lemma event_le_spec a b :
  event_le a b = true
  ↔ ev_timestamp a < ev_timestamp b
    ∨ (ev_timestamp a = ev_timestamp b ∧ ev_sequence a ≤ ev_sequence b).
Proof.
  unfold event_le.
  rewrite orb_true_iff, andb_true_iff, !bool_decide_eq_true. tauto.
Qed.

Lemma event_le_total a b : event_le a b = false → event_le b a = true.
Proof.
  intros Hab. apply event_le_spec.
  destruct (decide (ev_timestamp b < ev_timestamp a)); [by left|right].
  assert (¬ event_le a b = true) as Hn by by rewrite Hab.
  rewrite event_le_spec in Hn. lia.
Qed.

Lemma getEventsInRange_sorted db sessionId startTime endTime :
  Sorted (λ a b, event_le a b = true)
         (getEventsInRange db sessionId startTime endTime).
Proof. apply order_by_sorted, event_le_total. Qed.

(** The scenario itself, with [sequence] left out: append order. *)
Example range_5000_default_sequence :
  ev_source <$> getEventsInRange (two_at_5000 None None) 1 5000 5000
  = ["a.js"; "b.js"].
Proof. reflexivity. Qed.


End EventLogFacts.

(** ** Write-path failures the store does not have *)

Module WritePathFacts.
Import JS Sql DatabaseWrapper History Scenario SqlFacts.

(** Reconstruction finds nothing for a path without a snapshot. *)
Lemma getFileStateAtTime_None db sessionId filePath timestamp :
  (∀ r, r ∈ file_snapshots db →
        ¬ snapshot_matches sessionId filePath timestamp r) →
  getFileStateAtTime db sessionId filePath timestamp = None.
Proof.
  intros Hnone. unfold getFileStateAtTime.
  by rewrite filter_none.
Qed.








End WritePathFacts.

(** ** Reconstruction and snapshot integrity *)

Module ReconstructionFacts.
Import JS Sql DatabaseWrapper History Scenario SqlFacts.

(** [byteLength] counts the bytes [utf8_encode] writes. *)
Lemma byteLength_encode_bounded n s :
  (length s ≤ n)%nat → byteLength s = Z.of_nat (length (utf8_encode s)).
Proof.
  revert s. induction n as [|n IH]; intros s Hn.
  - destruct s; [done|simpl in Hn; lia].
  - destruct s as [|c s]; [done|]. simpl in Hn.
    assert (byteLength s = Z.of_nat (length (utf8_encode s))) as IHs
      by (apply IH; lia).
    cbn [byteLength utf8_encode].
    destruct (c <? 0x80)%N; [cbn [length]; lia|].
    destruct (c <? 0x800)%N; [cbn [length app]; lia|].
    destruct (is_high_surrogate c).
    + destruct s as [|d s']; [done|].
      destruct (is_low_surrogate d).
      * simpl in Hn. rewrite (IH s') by lia. cbn [length app]. lia.
      * rewrite IHs. unfold replacement. cbn [length app]. lia.
    + destruct (is_low_surrogate c);
        rewrite IHs; unfold replacement; cbn [length app]; lia.
Qed.

Lemma byteLength_encode s :
  byteLength s = Z.of_nat (length (utf8_encode s)).
Proof. by apply (byteLength_encode_bounded (length s)). Qed.

Lemma snapshot_le_refl (u : snapshot_row) :
  bool_decide (snap_timestamp u ≤ snap_timestamp u) = true.
Proof. apply bool_decide_eq_true_2. lia. Qed.

(** C9.  If no snapshot of the path in the session has a timestamp at or
    before the target, [getFileStateAtTime] returns nothing.  If there
    is one, it returns a state whose snapshot is such a row with the
    greatest timestamp; and when no diff of the path lies after that
    snapshot and at or before the target, there are no diffs to apply
    and the reconstructed content is that snapshot's content. *)
Theorem getFileStateAtTime_base_cases db sessionId filePath timestamp :
  ((∀ r, r ∈ file_snapshots db →
         ¬ snapshot_matches sessionId filePath timestamp r) →
   getFileStateAtTime db sessionId filePath timestamp = None)
  ∧ ((∃ r, r ∈ file_snapshots db
           ∧ snapshot_matches sessionId filePath timestamp r) →
     ∃ st,
       getFileStateAtTime db sessionId filePath timestamp = Some st
       ∧ snapshot st ∈ file_snapshots db
       ∧ snapshot_matches sessionId filePath timestamp (snapshot st)
       ∧ (∀ r, r ∈ file_snapshots db →
               snapshot_matches sessionId filePath timestamp r →
               snap_timestamp r ≤ snap_timestamp (snapshot st))
       ∧ ((∀ d, d ∈ diffs db →
                ¬ diff_matches sessionId filePath
                    (snap_timestamp (snapshot st)) timestamp d) →
          fs_diffs st = []
          ∧ reconstructedContent st = content (snapshot st))).
Proof.
  split; [apply WritePathFacts.getFileStateAtTime_None|].
  intros (r0 & Hr0 & Hm0). unfold getFileStateAtTime.
  set (le := λ a b, bool_decide (snap_timestamp a ≤ snap_timestamp b)).
  set (rows := filter (snapshot_matches sessionId filePath timestamp)
                      (file_snapshots db)).
  destruct (Sql.last_by le rows) as [snap|] eqn:Hlast.
  - apply last_by_Some in Hlast as [Hin Hmax].
    + apply list_elem_of_filter in Hin as [Hm Hin].
      eexists. split; [done|]. simpl. split_and!; try done.
      * intros r Hr Hm'.
        assert (r ∈ rows) as Hrows by by apply list_elem_of_filter.
        apply Hmax in Hrows. unfold le in Hrows.
        by apply bool_decide_eq_true_1 in Hrows.
      * intros Hnone. by rewrite filter_none.
    + intros u. apply snapshot_le_refl.
    + intros u v Huv. unfold le in *.
      apply bool_decide_eq_false_1 in Huv.
      apply bool_decide_eq_true_2. lia.
    + intros u v w Huv Hvw. unfold le in *.
      apply bool_decide_eq_true_1 in Huv, Hvw.
      apply bool_decide_eq_true_2. lia.
  - apply last_by_None in Hlast.
    assert (r0 ∈ rows) as Hrows by by apply list_elem_of_filter.
    rewrite Hlast in Hrows. by apply not_elem_of_nil in Hrows.
Qed.

Section WithHash.
Variable sha256_hex : list N → string.

(** C1 on the code.  At 1200 no diff is due and the content is [x].
    At 1700 and at 2500 the diffs that are due are found, in order,
    and then dropped by [applyDiffs]: the content is still [x], where
    the scenario has [xy] and [xyz]. *)
Theorem applyDiffs_leaves_base_content :
  (reconstructedContent <$> getFileStateAtTime (x_then_y_then_z sha256_hex) 1 "a.js" 1200
   = Some (lit "x"))
  ∧ ((λ st, diff_data <$> fs_diffs st)
       <$> getFileStateAtTime (x_then_y_then_z sha256_hex) 1 "a.js" 1700
     = Some ["+y"])
  ∧ (reconstructedContent <$> getFileStateAtTime (x_then_y_then_z sha256_hex) 1 "a.js" 1700
     = Some (lit "x"))
  ∧ ((λ st, diff_data <$> fs_diffs st)
       <$> getFileStateAtTime (x_then_y_then_z sha256_hex) 1 "a.js" 2500
     = Some ["+y"; "+z"])
  ∧ (reconstructedContent <$> getFileStateAtTime (x_then_y_then_z sha256_hex) 1 "a.js" 2500
     = Some (lit "x"))
  ∧ lit "x" ≠ lit "xy" ∧ lit "x" ≠ lit "xyz".
Proof. by split_and!. Qed.

Lemma step_file_snapshots db c :
  file_snapshots (step sha256_hex db c) = file_snapshots db
  ∨ ∃ r, file_snapshots (step sha256_hex db c) = file_snapshots db ++ [r]
         ∧ intact sha256_hex r.
Proof.
  destruct c; simpl; try by left.
  right. eexists. split; [done|]. split; simpl; [done|].
  apply byteLength_encode.
Qed.

(** C10.  In a store written through the wrapper's calls, every
    snapshot row carries the SHA-256 hex digest of the UTF-8 encoding
    of the content it stores, and as its size the number of bytes of
    that encoding. *)
Theorem snapshot_rows_intact cs r :
  r ∈ file_snapshots (run sha256_hex cs) → intact sha256_hex r.
Proof.
  revert r. induction cs as [|c cs IH] using rev_ind; intros r.
  - simpl. by intros ?%not_elem_of_nil.
  - unfold run in *. rewrite foldl_app. simpl.
    destruct (step_file_snapshots (foldl (step sha256_hex) empty cs) c)
      as [->|(r' & -> & Hr')]; [by apply IH|].
    intros [Hr| ->%list_elem_of_singleton]%elem_of_app; auto.
Qed.
End WithHash.

Lemma getFileStateAtTime_base_cases_witness :
  getFileStateAtTime (x_then_y_then_z length_digest) 1 "a.js" 999 = None
  ∧ ∃ st,
      getFileStateAtTime (x_then_y_then_z length_digest) 1 "a.js" 1200
      = Some st
      ∧ snap_timestamp (snapshot st) = 1000
      ∧ fs_diffs st = []
      ∧ reconstructedContent st = content (snapshot st).
Proof.
  split.
  - apply (getFileStateAtTime_base_cases
             (x_then_y_then_z length_digest) 1 "a.js" 999).
    intros r Hr (_ & _ & Ht). revert Hr Ht. vm_compute.
    intros ->%list_elem_of_singleton. by vm_compute.
  - destruct (proj2 (getFileStateAtTime_base_cases
                       (x_then_y_then_z length_digest) 1 "a.js" 1200))
      as (st & Hst & _ & _ & _ & Hbase).
    + eexists. split; [apply list_elem_of_here|]. by vm_compute.
    + exists st. split; [done|].
      assert (snap_timestamp (snapshot st) = 1000) as Hts.
      { vm_compute in Hst. by injection Hst as <-. }
      split; [done|]. apply Hbase. rewrite Hts.
      intros d Hd (_ & _ & Hafter & Hupto). revert Hd Hafter Hupto.
      vm_compute.
      intros [->|[->|[]%not_elem_of_nil]%elem_of_cons]%elem_of_cons;
        by vm_compute.
Defined.

Lemma snapshot_rows_intact_witness :
  ∃ r, file_snapshots (x_then_y_then_z length_digest) = [r]
       ∧ intact length_digest r.
Proof.
  eexists. split; [reflexivity|].
  apply (snapshot_rows_intact length_digest
           [ CreateSession 900 "/project" None None;
             AddFileSnapshot 1000 1 "a.js" (VString (lit "x"));
             AddDiff 1500 1 "a.js" "+y" 1 1 1 0;
             AddDiff 2000 1 "a.js" "+z" 1 1 1 0 ]).
  apply list_elem_of_here.
Defined.

End ReconstructionFacts.

(** ** Oversized content *)

Module SizeCapFacts.
Import JS Scenario.


Section WithHash.
Variable sha256_hex : list N → string.

End WithHash.



End SizeCapFacts.

(** ** Playback *)

Module PlaybackFacts.
Import DatabaseWrapper PlaybackServer Scenario.

(** C4 on the code.  Played from 1000 at speed 1, the first run of the
    callback finds the edit at 1120 not yet due and moves the clock to
    1100; the second finds it still not due, moves the clock to 1200,
    which is past the end 1150, and completes.  The edit, which lies in
    the played range, is never sent. *)
Theorem playback_drops_events_near_end :
  (ev_timestamp <$> getEventsInRange short_session 1 1000 1150 = [1120])
  ∧ sent (ticks 1 0 short_playing) = []
  ∧ sent (ticks 2 0 short_playing) = [playback_complete]
  ∧ intervals (ticks 2 0 short_playing) !! 0%nat = None
  ∧ emitted (ticks 2 0 short_playing) = [].
Proof. by split_and!. Qed.

Lemma tick_cleared h ws : intervals ws !! h = None → tick h ws = ws.
Proof. intros H. unfold tick. by rewrite H. Qed.

Lemma ticks_cleared n h ws : intervals ws !! h = None → ticks n h ws = ws.
Proof.
  intros H. induction n as [|n IH]; simpl; [done|].
  by rewrite tick_cleared.
Qed.

Lemma due_prefix rest t : due rest t = take (length (due rest t)) rest.
Proof.
  induction rest as [|e rest IH]; simpl; [done|].
  destruct (Qle_bool _ _); simpl; [by f_equal|done].
Qed.

Lemma emitted_send_events ws out rest next pl :
  emitted {| sent := sent ws ++ (event <$> out); intervals := rest;
             next_handle := next; playInterval := pl |}
  = emitted ws ++ out.
Proof.
  unfold emitted. simpl. rewrite omap_app. f_equal.
  induction out as [|e out IH]; simpl; [done|]. by f_equal.
Qed.

Lemma emitted_send_complete ws :
  emitted (send ws playback_complete) = emitted ws.
Proof.
  unfold emitted, send. simpl. rewrite omap_app. simpl. apply app_nil_r.
Qed.

(** What one play does send.  Over any number of runs of one interval's
    callback, the events sent are a run of consecutive events of the list
    the interval holds, starting at its cursor and in the list's order:
    within one play nothing is sent twice or out of order. *)
Lemma ticks_emit_in_order n h ws c :
  intervals ws !! h = Some c →
  ∃ k, emitted (ticks n h ws)
       = emitted ws ++ take k (drop (eventIndex c) (cl_events c)).
Proof.
  revert ws c. induction n as [|n IH]; intros ws c Hc.
  - exists 0%nat. simpl. by rewrite app_nil_r.
  - simpl. unfold tick. rewrite Hc.
    set (out := due (drop (eventIndex c) (cl_events c)) (currentTime c)).
    destruct (negb _ || _).
    + exists (length out). rewrite ticks_cleared.
      * rewrite emitted_send_complete. unfold clearInterval. simpl.
        rewrite emitted_send_events. f_equal. apply due_prefix.
      * simpl. apply lookup_delete_eq.
    + match goal with
      | |- context [ticks n h ?w] => set (ws1 := w)
      end.
      assert (∃ c', intervals ws1 !! h = Some c'
                    ∧ eventIndex c' = (eventIndex c + length out)%nat
                    ∧ cl_events c' = cl_events c) as (c' & Hc' & Hi & He).
      { eexists. split; [apply lookup_insert_eq|done]. }
      destruct (IH ws1 c' Hc') as [k Hk].
      exists (length out + k)%nat. rewrite Hk, Hi, He. subst ws1.
      rewrite emitted_send_events, <- app_assoc. f_equal.
      rewrite <- take_take_drop, drop_drop. f_equal. apply due_prefix.
Qed.

(** C8, as the code has it.  [handlePause] cancels the interval whose
    handle the connection holds: what was sent stays, and no later run
    of that callback sends anything.  The cursor ([currentTime],
    [eventIndex]) lived in that interval only and goes with it.  There
    is no resume: a following [handlePlay] schedules a new interval that
    starts at its [startTime] argument and at the first event of the
    range it queries, whatever was sent before the pause. *)
Theorem pause_cancels_play_restarts db now ws h startTime speed session :
  playInterval ws = Some h →
  latest_session db = Some session →
  let paused := handlePause ws in
  let again := handlePlay db now paused startTime speed in
  sent paused = sent ws
  ∧ playInterval paused = None
  ∧ intervals paused !! h = None
  ∧ (∀ n, ticks n h paused = paused)
  ∧ sent again = sent ws
  ∧ playInterval again = Some (next_handle ws)
  ∧ intervals again !! next_handle ws
    = Some {| cl_events :=
                getEventsInRange db (session_id session) startTime
                                 (end_or_now session now);
              cl_endTime := end_or_now session now;
              cl_speed := default 1%Q speed;
              currentTime := inject_Z startTime;
              eventIndex := 0 |}.
Proof.
  intros Hh Hs. unfold handlePause, handlePlay. rewrite Hh, Hs. simpl.
  split_and!; try done.
  - apply lookup_delete_eq.
  - intros n. apply ticks_cleared. simpl. apply lookup_delete_eq.
  - apply lookup_insert_eq.
Qed.

Lemma pause_cancels_play_restarts_witness :
  ev_source <$> emitted long_paused = ["a.js"]
  ∧ ticks 3 0 long_paused = long_paused
  ∧ (eventIndex
       <$> intervals (handlePlay long_session 9000 long_paused 1000 None)
             !! 1%nat) = Some 0%nat.
Proof.
  destruct (pause_cancels_play_restarts long_session 9000
              (tick 0 (handlePlay long_session 9000 connect 1000 None))
              0 1000 None
              {| session_id := 1; start_time := 1000;
                 end_time := Some 5000; project_path := "/project";
                 git_branch := None; git_commit := None |})
    as (_ & _ & _ & Hhalt & _ & _ & Hagain); [reflexivity..|].
  split_and!; [reflexivity|exact (Hhalt 3%nat)|].
  unfold long_paused.
  change (next_handle (tick 0 (handlePlay long_session 9000 connect
                                          1000 None)))
    with 1%nat in Hagain.
  by rewrite Hagain.
Defined.

(** C8 as stated fails: over pause and play the edit at 1000 is sent
    twice. *)
Lemma pause_then_play_repeats_events :
  ev_source <$> emitted play_pause_play = ["a.js"; "a.js"]
  ∧ ¬ NoDup (emitted play_pause_play).
Proof.
  split; [reflexivity|].
  intros H. vm_compute in H. apply NoDup_cons_1_1 in H.
  apply H. apply list_elem_of_here.
Qed.

End PlaybackFacts.

(** ** The store over whole histories *)

Module StoreFacts.
Import JS Sql DatabaseWrapper History Scenario Notions SqlFacts.

Lemma Sorted_weaken {A} (R1 R2 : A → A → Prop) l :
  (∀ a b, R1 a b → R2 a b) → Sorted R1 l → Sorted R2 l.
Proof.
  intros HR. induction 1 as [|x l Hs IH Hhd]; constructor; [done|].
  destruct Hhd; constructor; auto.
Qed.

(** X1.  [getEventsInRange] returns the events of the session whose timestamp
    lies in the closed range, each stored row once and no other row,
    ordered by timestamp and, within a timestamp, by sequence; a range
    whose end lies before its start is empty. *)
Theorem range_query_contract db sessionId startTime endTime :
  getEventsInRange db sessionId startTime endTime
  ≡ₚ filter (λ e, ev_session e = sessionId
                  ∧ startTime ≤ ev_timestamp e ≤ endTime) (events db)
  ∧ Sorted (λ a b, ev_timestamp a < ev_timestamp b
                   ∨ (ev_timestamp a = ev_timestamp b
                      ∧ ev_sequence a ≤ ev_sequence b))
           (getEventsInRange db sessionId startTime endTime)
  ∧ (endTime < startTime
     → getEventsInRange db sessionId startTime endTime = []).
Proof.
  split_and!.
  - apply EventLogFacts.getEventsInRange_perm.
  - eapply Sorted_weaken; [|apply EventLogFacts.getEventsInRange_sorted].
    intros a b. apply EventLogFacts.event_le_spec.
  - intros Hempty. unfold getEventsInRange.
    rewrite filter_none; [done|]. intros e _ [_ ?]. lia.
Qed.

Lemma range_query_contract_witness :
  getEventsInRange (two_at_5000 None None) 1 6000 5000 = [].
Proof.
  apply (range_query_contract (two_at_5000 None None) 1 6000 5000). lia.
Defined.

Lemma seqZ_snoc (n : Z) : 0 ≤ n → seqZ 1 (n + 1) = seqZ 1 n ++ [n + 1].
Proof.
  intros Hn. rewrite seqZ_app by lia.
  replace (1 + n) with (n + 1) by lia. done.
Qed.

Lemma numbered_snoc ids counter :
  numbered ids counter → numbered (ids ++ [counter + 1]) (counter + 1).
Proof.
  intros [Hc ->]. split; [lia|]. by rewrite seqZ_snoc.
Qed.

Section WithHash.
Variable sha256_hex : list N → string.

Lemma run_snoc cs c :
  run sha256_hex (cs ++ [c]) = step sha256_hex (run sha256_hex cs) c.
Proof. unfold run. by rewrite foldl_app. Qed.

Lemma run_numbered cs :
  numbered (session_id <$> sessions (run sha256_hex cs))
           (sessions_seq (run sha256_hex cs))
  ∧ numbered (event_id <$> events (run sha256_hex cs))
             (events_seq (run sha256_hex cs))
  ∧ numbered (snapshot_id <$> file_snapshots (run sha256_hex cs))
             (file_snapshots_seq (run sha256_hex cs))
  ∧ numbered (diff_id <$> diffs (run sha256_hex cs))
             (diffs_seq (run sha256_hex cs)).
Proof.
  induction cs as [|c cs IH] using rev_ind.
  - by repeat split.
  - rewrite run_snoc.
    destruct IH as (Hs & He & Hf & Hd).
    destruct c as [now p b g|now sid|a|now sid p v|now sid p d ls le ca cr];
      cbn [step createSession endSession append_one addEvent addFileSnapshot
           addDiff fst sessions sessions_seq events events_seq
           file_snapshots file_snapshots_seq diffs diffs_seq];
      split_and!; try done.
    + rewrite fmap_app. by apply numbered_snoc.
    + rewrite <- list_fmap_compose.
      erewrite list_fmap_ext; [exact Hs|].
      intros i s _. unfold compose. by case_bool_decide.
    + rewrite fmap_app. by apply numbered_snoc.
    + rewrite fmap_app. by apply numbered_snoc.
    + rewrite fmap_app. by apply numbered_snoc.
Qed.

(** X2.  Over every history of calls on a new store, the row ids of each
    table are exactly 1, 2, ..., n in row order, where n is the number of
    rows: ids are never reused, skipped or reordered, and [endSession]
    changes no id. *)
Theorem row_ids_are_consecutive cs :
  let db := run sha256_hex cs in
  numbered (session_id <$> sessions db) (sessions_seq db)
  ∧ numbered (event_id <$> events db) (events_seq db)
  ∧ numbered (snapshot_id <$> file_snapshots db) (file_snapshots_seq db)
  ∧ numbered (diff_id <$> diffs db) (diffs_seq db).
Proof. apply run_numbered. Qed.

Lemma step_extends db c :
  events db `prefix_of` events (step sha256_hex db c)
  ∧ file_snapshots db `prefix_of` file_snapshots (step sha256_hex db c)
  ∧ diffs db `prefix_of` diffs (step sha256_hex db c)
  ∧ session_id <$> sessions db
    `prefix_of` session_id <$> sessions (step sha256_hex db c)
  ∧ start_time <$> sessions db
    `prefix_of` start_time <$> sessions (step sha256_hex db c).
Proof.
  destruct c; simpl; split_and!;
    try done; try (by apply prefix_app_r);
    try (rewrite fmap_app; by apply prefix_app_r).
  - rewrite <- list_fmap_compose.
    erewrite list_fmap_ext; [done|].
    intros i s _. unfold compose. by case_bool_decide.
  - rewrite <- list_fmap_compose.
    erewrite list_fmap_ext; [done|].
    intros i s _. unfold compose. by case_bool_decide.
Qed.

(** X3.  The store is append-only.  Whatever calls follow, the event,
    snapshot and diff rows already stored stay as they are, in place, and
    so do the id and the start time of every session; later calls only
    add rows after them. *)
Theorem store_is_append_only db cs :
  let db' := foldl (step sha256_hex) db cs in
  events db `prefix_of` events db'
  ∧ file_snapshots db `prefix_of` file_snapshots db'
  ∧ diffs db `prefix_of` diffs db'
  ∧ session_id <$> sessions db `prefix_of` session_id <$> sessions db'
  ∧ start_time <$> sessions db `prefix_of` start_time <$> sessions db'.
Proof.
  revert db. induction cs as [|c cs IH]; intros db; [done|].
  cbv zeta. simpl.
  destruct (step_extends db c) as (He & Hf & Hd & Hs & Ht).
  destruct (IH (step sha256_hex db c)) as (He' & Hf' & Hd' & Hs' & Ht').
  split_and!; etrans; eauto.
Qed.
End WithHash.

(** X4.  [endSession] is an overwrite: ending a session again replaces the
    end time, so the last call wins; and for an id that no session row
    has, the call changes nothing. *)
Theorem endSession_overwrites db t1 t2 sessionId :
  endSession (endSession db t1 sessionId) t2 sessionId
  = endSession db t2 sessionId
  ∧ (sessionId ∉ session_id <$> sessions db
     → endSession db t2 sessionId = db).
Proof.
  split.
  - unfold endSession. simpl. f_equal.
    rewrite <- list_fmap_compose. apply list_fmap_ext.
    intros i s _. unfold compose.
    destruct (bool_decide (session_id s = sessionId)) eqn:Hs;
      simpl; by rewrite Hs.
  - intros Hnew. destruct db as [ss n es en fs fn ds dn].
    unfold endSession. simpl in *. f_equal.
    rewrite <- (list_fmap_id ss) at 2. apply list_fmap_ext.
    intros i s Hs. case_bool_decide; [|done].
    exfalso. apply Hnew. apply list_elem_of_fmap. exists s.
    split; [done|]. by eapply list_elem_of_lookup_2.
Qed.

Lemma endSession_overwrites_witness :
  endSession fresh_session 2000 7 = fresh_session.
Proof.
  apply (endSession_overwrites fresh_session 0 2000 7).
  simpl. rewrite list_elem_of_singleton. lia.
Defined.

End StoreFacts.

(** ** Reconstruction as a query *)

Module LookupFacts.
Import JS Sql DatabaseWrapper History Scenario Notions SqlFacts.

Lemma last_by_snoc {A} (le : A → A → bool) l r :
  last_by le (l ++ [r])
  = match last_by le l with
    | Some b => if le b r then Some r else Some b
    | None => Some r
    end.
Proof. unfold last_by. by rewrite foldl_app. Qed.

Lemma snap_le_total (u v : snapshot_row) :
  bool_decide (snap_timestamp u ≤ snap_timestamp v) = false →
  bool_decide (snap_timestamp v ≤ snap_timestamp u) = true.
Proof.
  intros H%bool_decide_eq_false_1. apply bool_decide_eq_true_2. lia.
Qed.

Lemma snap_le_trans (u v w : snapshot_row) :
  bool_decide (snap_timestamp u ≤ snap_timestamp v) = true →
  bool_decide (snap_timestamp v ≤ snap_timestamp w) = true →
  bool_decide (snap_timestamp u ≤ snap_timestamp w) = true.
Proof.
  intros H1%bool_decide_eq_true_1 H2%bool_decide_eq_true_1.
  apply bool_decide_eq_true_2. lia.
Qed.

Lemma latest_snapshot_Some (rows : list snapshot_row) r :
  last_by (λ a b, bool_decide (snap_timestamp a ≤ snap_timestamp b)) rows
  = Some r →
  r ∈ rows ∧ ∀ x, x ∈ rows → snap_timestamp x ≤ snap_timestamp r.
Proof.
  intros H. apply last_by_Some in H as [Hin Hmax].
  - split; [done|]. intros x Hx. by apply Hmax, bool_decide_eq_true_1 in Hx.
  - intros u. apply ReconstructionFacts.snapshot_le_refl.
  - apply snap_le_total.
  - apply snap_le_trans.
Qed.

(** What a found state is made of. *)
Lemma getFileStateAtTime_Some db sessionId filePath timestamp st :
  getFileStateAtTime db sessionId filePath timestamp = Some st →
  snapshot st ∈ file_snapshots db
  ∧ snapshot_matches sessionId filePath timestamp (snapshot st)
  ∧ (∀ r, r ∈ file_snapshots db →
          snapshot_matches sessionId filePath timestamp r →
          snap_timestamp r ≤ snap_timestamp (snapshot st))
  ∧ fs_diffs st
    = order_by (λ a b, bool_decide (diff_timestamp a ≤ diff_timestamp b))
        (filter (diff_matches sessionId filePath
                              (snap_timestamp (snapshot st)) timestamp)
                (diffs db))
  ∧ reconstructedContent st = content (snapshot st).
Proof.
  unfold getFileStateAtTime.
  destruct (last_by _ _) as [snap|] eqn:Hlast; [|done].
  intros [= <-]. simpl.
  apply latest_snapshot_Some in Hlast as [Hin Hmax].
  apply list_elem_of_filter in Hin as [Hm Hin].
  split_and!; try done.
  intros r Hr Hmr. apply Hmax. by apply list_elem_of_filter.
Qed.

Lemma getFileStateAtTime_is_Some db sessionId filePath timestamp r :
  r ∈ file_snapshots db →
  snapshot_matches sessionId filePath timestamp r →
  is_Some (getFileStateAtTime db sessionId filePath timestamp).
Proof.
  intros Hr Hm. unfold getFileStateAtTime.
  destruct (last_by _ _) as [snap|] eqn:Hlast; [by eexists|].
  apply last_by_None in Hlast.
  assert (r ∈ filter (snapshot_matches sessionId filePath timestamp)
                     (file_snapshots db)) as Hin
    by by apply list_elem_of_filter.
  rewrite Hlast in Hin. by apply not_elem_of_nil in Hin.
Qed.

(** X5.  The diffs [getFileStateAtTime] hands over with a snapshot are the
    diffs of the same session and path stamped after the snapshot and at
    or before the target, each once, in time order.  A diff with the
    snapshot's own timestamp is not among them. *)
Theorem returned_diffs_contract db sessionId filePath timestamp st :
  getFileStateAtTime db sessionId filePath timestamp = Some st →
  fs_diffs st
  ≡ₚ filter (diff_matches sessionId filePath
                          (snap_timestamp (snapshot st)) timestamp)
            (diffs db)
  ∧ Sorted (λ a b, diff_timestamp a ≤ diff_timestamp b) (fs_diffs st)
  ∧ (∀ d, d ∈ fs_diffs st →
          d ∈ diffs db
          ∧ diff_session d = sessionId ∧ diff_path d = filePath
          ∧ snap_timestamp (snapshot st) < diff_timestamp d ≤ timestamp).
Proof.
  intros (_ & _ & _ & Hd & _)%getFileStateAtTime_Some. rewrite Hd.
  split_and!.
  - apply order_by_perm.
  - eapply StoreFacts.Sorted_weaken; [|apply order_by_sorted].
    + intros a b. apply bool_decide_eq_true_1.
    + intros a b H%bool_decide_eq_false_1. apply bool_decide_eq_true_2. lia.
  - intros d Hin. apply elem_of_order_by in Hin.
    apply list_elem_of_filter in Hin as [(? & ? & ? & ?) ?]. by split_and!.
Qed.

(** X6.  A later target never yields an older snapshot: if a state is found
    for a target, one is found for every later target, with a snapshot at
    least as recent. *)
Theorem later_target_later_snapshot db sessionId filePath t1 t2 st1 :
  t1 ≤ t2 →
  getFileStateAtTime db sessionId filePath t1 = Some st1 →
  ∃ st2,
    getFileStateAtTime db sessionId filePath t2 = Some st2
    ∧ snap_timestamp (snapshot st1) ≤ snap_timestamp (snapshot st2).
Proof.
  intros Ht (Hin & (Hs & Hp & Hts) & _)%getFileStateAtTime_Some.
  assert (snapshot_matches sessionId filePath t2 (snapshot st1)) as Hm
    by (split_and!; [done|done|lia]).
  destruct (getFileStateAtTime_is_Some db sessionId filePath t2 _ Hin Hm)
    as [st2 Hst2].
  exists st2. split; [done|].
  apply getFileStateAtTime_Some in Hst2 as (_ & _ & Hmax & _). by apply Hmax.
Qed.

Section WithHash.
Variable sha256_hex : list N → string.


(** X8.  Calls about other files leave a file's reconstruction alone: only a
    snapshot or a diff stored for the same session and path can change
    what [getFileStateAtTime] returns for them. *)
Theorem reconstruction_frame db c sessionId filePath target :
  ¬ touches sessionId filePath c →
  getFileStateAtTime (step sha256_hex db c) sessionId filePath target
  = getFileStateAtTime db sessionId filePath target.
Proof.
  intros Hc.
  destruct c as [now p b g|now sid|a|now sid p v|now sid p d ls le ca cr];
    try done; unfold getFileStateAtTime;
    cbn [step addFileSnapshot addDiff fst file_snapshots diffs].
  - rewrite filter_app, filter_cons_False, filter_nil, app_nil_r; [done|].
    intros (? & ? & _). by apply Hc.
  - destruct (last_by _ _) as [snap|]; [|done]. do 2 f_equal.
    all: rewrite filter_app, filter_cons_False, filter_nil, app_nil_r;
      [done|]; intros (? & ? & _); by apply Hc.
Qed.
End WithHash.

Lemma returned_diffs_contract_witness :
  ∃ st,
    getFileStateAtTime (x_then_y_then_z length_digest) 1 "a.js" 1700 = Some st
    ∧ Sorted (λ a b, diff_timestamp a ≤ diff_timestamp b) (fs_diffs st).
Proof.
  eexists. split; [reflexivity|].
  eapply (returned_diffs_contract (x_then_y_then_z length_digest) 1 "a.js"
                                  1700).
  reflexivity.
Defined.

Lemma later_target_later_snapshot_witness :
  ∃ st2,
    getFileStateAtTime (x_then_y_then_z length_digest) 1 "a.js" 2500 = Some st2
    ∧ 1000 ≤ snap_timestamp (snapshot st2).
Proof.
  destruct (later_target_later_snapshot
              (x_then_y_then_z length_digest) 1 "a.js" 1200 2500
              {| snapshot :=
                   {| snapshot_id := 1; snap_session := 1;
                      snap_path := "a.js"; snap_timestamp := 1000;
                      content := lit "x";
                      content_hash :=
                        length_digest (utf8_encode (lit "x"));
                      size := 1 |};
                 fs_diffs := [];
                 reconstructedContent := lit "x" |})
    as (st2 & Hst2 & Hle); [lia|reflexivity|].
  by exists st2.
Defined.


Lemma reconstruction_frame_witness :
  getFileStateAtTime
    (step length_digest (x_then_y_then_z length_digest)
          (AddDiff 1600 1 "b.js" "+q" 1 1 1 0)) 1 "a.js" 1700
  = getFileStateAtTime (x_then_y_then_z length_digest) 1 "a.js" 1700.
Proof.
  apply (reconstruction_frame length_digest).
  simpl. by intros [_ ?].
Defined.

End LookupFacts.

(** ** The HTTP routes of [server.js] *)

Module RouteFacts.
Import JS Sql DatabaseWrapper PlaybackServer Routes Scenario SqlFacts.

Lemma filter_agree {A} (P Q : A → Prop)
    `{!∀ x, Decision (P x)} `{!∀ x, Decision (Q x)} (l : list A) :
  (∀ x, x ∈ l → P x ↔ Q x) → filter P l = filter Q l.
Proof.
  induction l as [|x l IH]; intros Hl; [done|].
  rewrite !filter_cons, IH by (intros y Hy; apply Hl; by right).
  destruct (decide (P x)) as [HP|HP], (decide (Q x)) as [HQ|HQ]; try done.
  - exfalso. apply HQ, (Hl x); [left|done].
  - exfalso. apply HP, (Hl x); [left|done].
Qed.

(** X9.  On a store whose events all belong to one session, [GET /api/events]
    with numeric [start] and [end] and no [type] returns what
    [getEventsInRange] returns for that session: the HTTP query and the
    query behind seek and play agree.  A [start] or [end] that is given
    but is not a number yields no event at all. *)
Theorem api_events_agrees_with_range db sessionId s e type :
  (∀ ev, ev ∈ events db → ev_session ev = sessionId) →
  api_events db (Number s) (Number e) None
  = getEventsInRange db sessionId s e
  ∧ api_events db NotANumber (Number e) type = []
  ∧ api_events db (Number s) NotANumber type = [].
Proof.
  intros Hone. unfold api_events, getEventsInRange. split_and!.
  - f_equal. apply filter_agree. intros ev Hev. simpl.
    rewrite andb_true_r, andb_True, !bool_decide_spec.
    specialize (Hone ev Hev). tauto.
  - rewrite filter_none; [done|]. intros ev _ H. by simpl in H.
  - rewrite filter_none; [done|]. intros ev _ H. simpl in H.
    by rewrite andb_false_r in H.
Qed.

Lemma api_events_agrees_with_range_witness :
  api_events (two_at_5000 None None) (Number 5000) (Number 5000) None
  = getEventsInRange (two_at_5000 None None) 1 5000 5000.
Proof.
  apply (api_events_agrees_with_range (two_at_5000 None None) 1 5000 5000
                                      None).
  intros ev. vm_compute.
  intros [->|[->|[]%not_elem_of_nil]%elem_of_cons]%elem_of_cons; done.
Defined.

(** X10.  The two file routes agree on the snapshot.  For a path whose
    snapshots were all stored under session 1, [GET /api/file-content]
    answers with the snapshot that [GET /api/file] (that is,
    [getFileStateAtTime] for session 1) bases its state on; both answer
    400 when the path parameter is missing or empty. *)
Theorem file_routes_agree db timestamp p :
  (∀ r, r ∈ file_snapshots db → snap_path r = p → snap_session r = 1) →
  (p ≠ "" →
   api_file_content db timestamp (Some p)
   = json (snapshot <$> getFileStateAtTime db 1 p timestamp)
   ∧ api_file db timestamp (Some p)
     = json (getFileStateAtTime db 1 p timestamp))
  ∧ api_file_content db timestamp (Some "")
    = bad_request "file_path parameter required"
  ∧ api_file_content db timestamp None
    = bad_request "file_path parameter required"
  ∧ api_file db timestamp (Some "") = bad_request "File path required"
  ∧ api_file db timestamp None = bad_request "File path required".
Proof.
  intros Hone. split_and!; try done.
  intros Hp. unfold api_file_content, api_file, getFileStateAtTime.
  rewrite bool_decide_eq_false_2 by done. split; [|done]. f_equal.
  rewrite (filter_agree _ (snapshot_matches 1 p timestamp)).
  - by destruct (last_by _ _).
  - intros r Hr. unfold snapshot_matches. specialize (Hone r Hr).
    tauto.
Qed.

Lemma file_routes_agree_witness :
  api_file_content (x_then_y_then_z length_digest) 1700 (Some "a.js")
  = json (snapshot
            <$> getFileStateAtTime (x_then_y_then_z length_digest) 1 "a.js"
                                   1700).
Proof.
  apply (file_routes_agree (x_then_y_then_z length_digest) 1700 "a.js");
    [|done].
  intros r. vm_compute. by intros ->%list_elem_of_singleton.
Defined.

Lemma sum_list_with_ext {K} (a b : K → nat) (keys : list K) :
  (∀ k, a k = b k) → sum_list_with a keys = sum_list_with b keys.
Proof.
  intros Hab. induction keys as [|k keys IH]; [done|].
  simpl. by rewrite Hab, IH.
Qed.

Lemma sum_list_with_fmap {K L} (a : L → nat) (h : K → L) (keys : list K) :
  sum_list_with a (h <$> keys) = sum_list_with (a ∘ h) keys.
Proof. induction keys as [|k keys IH]; [done|]. csimpl. by rewrite IH. Qed.

Lemma sum_list_with_add {K} (a b : K → nat) (keys : list K) :
  sum_list_with (λ k, a k + b k)%nat keys
  = (sum_list_with a keys + sum_list_with b keys)%nat.
Proof. induction keys as [|k keys IH]; simpl; lia. Qed.

Lemma sum_indicator_absent {K} `{EqDecision K} (y : K) (keys : list K) :
  y ∉ keys →
  sum_list_with (λ k, if decide (y = k) then 1 else 0)%nat keys = 0%nat.
Proof.
  induction keys as [|k keys IH]; [done|]. intros Hy. simpl.
  rewrite decide_False by (intros ->; apply Hy; left).
  apply IH. intros ?. apply Hy. by right.
Qed.

Lemma sum_indicator_present {K} `{EqDecision K} (y : K) (keys : list K) :
  NoDup keys → y ∈ keys →
  sum_list_with (λ k, if decide (y = k) then 1 else 0)%nat keys = 1%nat.
Proof.
  induction keys as [|k keys IH]; intros Hnd Hy.
  - by apply not_elem_of_nil in Hy.
  - apply NoDup_cons in Hnd as [Hk Hnd]. simpl.
    destruct (decide (y = k)) as [->|Hne].
    + by rewrite sum_indicator_absent.
    + apply elem_of_cons in Hy as [?|Hy]; [done|]. by rewrite IH.
Qed.

(** Counting the rows key by key, over keys that cover them and do not
    repeat, counts every row once. *)
Lemma count_by_key {A K} `{EqDecision K} (f : A → K) (keys : list K)
    (l : list A) :
  NoDup keys → (∀ x, x ∈ l → f x ∈ keys) →
  sum_list_with (λ k, length (filter (λ x, f x = k) l)) keys = length l.
Proof.
  intros Hnd. induction l as [|x l IH]; intros Hin.
  - clear. induction keys as [|k keys IH]; [done|]. simpl in *. by rewrite IH.
  - rewrite (sum_list_with_ext _
               (λ k, (if decide (f x = k) then 1 else 0)
                     + length (filter (λ y, f y = k) l))%nat).
    + rewrite sum_list_with_add, sum_indicator_present, IH; [done|..].
      * intros y Hy. apply Hin. by right.
      * done.
      * apply Hin. left.
    + intros k. rewrite filter_cons. by destruct (decide (f x = k)).
Qed.

(** X11.  [GET /api/files] lists every path that has a snapshot exactly once,
    in the byte order of the paths, each with the number of its
    snapshots; the counts are at least one and add up to the number of
    snapshot rows.  [GET /api/file-history] for a listed path has as many
    entries as the count says. *)
Theorem api_files_counts db :
  NoDup (fl_path <$> api_files db)
  ∧ Sorted (λ a b, String.leb a b = true) (fl_path <$> api_files db)
  ∧ (∀ p, p ∈ fl_path <$> api_files db
          ↔ p ∈ snap_path <$> file_snapshots db)
  ∧ (∀ line, line ∈ api_files db →
             1 ≤ fl_changes line
             ∧ Z.of_nat (length (api_file_history db (fl_path line)))
               = fl_changes line)
  ∧ sum_list_with (λ line, Z.to_nat (fl_changes line)) (api_files db)
    = length (file_snapshots db).
Proof.
  unfold api_files.
  set (paths := remove_dups (snap_path <$> file_snapshots db)).
  assert (order_by String.leb paths ≡ₚ paths) as Hperm
    by apply order_by_perm.
  assert (NoDup paths) as Hnd by apply NoDup_remove_dups.
  rewrite <- list_fmap_compose.
  assert (∀ l : list string,
            (fl_path ∘ (λ p, {| fl_path := p;
                                fl_changes :=
                                  Z.of_nat (length
                                    (filter (λ r, snap_path r = p)
                                            (file_snapshots db))) |}))
              <$> l = l) as Hid.
  { intros l. rewrite <- (list_fmap_id l) at 2. by apply list_fmap_ext. }
  rewrite Hid. split_and!.
  - by rewrite Hperm.
  - apply order_by_sorted. intros u v Huv.
    by destruct (String.leb_total u v) as [H|H]; [congruence|].
  - intros p. rewrite Hperm. apply elem_of_remove_dups.
  - intros line (p & -> & Hp)%list_elem_of_fmap. simpl.
    rewrite Hperm in Hp. unfold paths in Hp.
    apply (proj1 (elem_of_remove_dups _ _)) in Hp.
    apply list_elem_of_fmap in Hp as (r & -> & Hr). split.
    + assert (r ∈ filter (λ r', snap_path r' = snap_path r)
                         (file_snapshots db)) as Hin
        by by apply list_elem_of_filter.
      destruct (filter _ _); [by apply not_elem_of_nil in Hin|simpl; lia].
    + unfold api_file_history. rewrite length_fmap.
      by rewrite (Permutation_length (order_by_perm _ _)).
  - rewrite Hperm.
    rewrite <- (count_by_key snap_path paths (file_snapshots db) Hnd).
    + rewrite sum_list_with_fmap. apply sum_list_with_ext.
      intros k. unfold compose. simpl. lia.
    + intros r Hr. apply elem_of_remove_dups, list_elem_of_fmap. eauto.
Qed.

Lemma api_files_counts_witness :
  Z.of_nat (length (api_file_history (x_then_y_then_z length_digest) "a.js"))
  = 1.
Proof.
  destruct (api_files_counts (x_then_y_then_z length_digest))
    as (_ & _ & _ & Hline & _).
  apply (Hline {| fl_path := "a.js"; fl_changes := 1 |}).
  vm_compute. apply list_elem_of_here.
Defined.

End RouteFacts.

(** ** The file-backed store and its viewer route *)

Module FileStoreFacts.
Import JS FileDatabase Routes WebServer Scenario Notions.








End FileStoreFacts.

(** ** The command line *)

Module CliFacts.
Import Cli Notions.



Lemma parse_word m word :
  starts_with_dash word = false →
  parse_arg {| args := m; currentFlag := None |} word
  = if negb (truthy (m !! "command")) then
      {| args := <["command" := Text word]> m; currentFlag := None |}
    else if negb (truthy (m !! "target")) then
      {| args := <["target" := Text word]> m; currentFlag := None |}
    else {| args := m; currentFlag := None |}.
Proof. intros H. unfold parse_arg. by rewrite H. Qed.



Lemma parse_extra_words m rest :
  truthy (m !! "command") = true → truthy (m !! "target") = true →
  Forall (λ a, starts_with_dash a = false) rest →
  foldl parse_arg {| args := m; currentFlag := None |} rest
  = {| args := m; currentFlag := None |}.
Proof.
  intros Hc Ht Hrest. induction Hrest as [|a rest Ha _ IH]; [done|].
  cbn [foldl]. by rewrite parse_word, Hc, Ht.
Qed.

(** X16.  Without options only two words are kept: the first under [command],
    the second under [target]; any further words are dropped without
    notice. *)
Theorem parseArgs_keeps_two_words node script command target rest :
  command ≠ "" → target ≠ "" →
  Forall (λ a, starts_with_dash a = false) (command :: target :: rest) →
  parseArgs (node :: script :: command :: target :: rest)
  = <["target" := Text target]> (<["command" := Text command]> ∅).
Proof.
  intros Hc Ht Hwords.
  apply Forall_cons in Hwords as [Hdc Hwords].
  apply Forall_cons in Hwords as [Hdt Hrest].
  unfold parseArgs. cbn [drop foldl].
  rewrite parse_word, lookup_empty by done. cbn [truthy negb].
  rewrite parse_word, lookup_insert_eq by done. cbn [truthy].
  rewrite (bool_decide_eq_false_2 (command = "")) by done. cbn [negb].
  rewrite lookup_insert_ne, lookup_empty by done. cbn [truthy negb].
  rewrite parse_extra_words; [done|..|done].
  - rewrite lookup_insert_ne, lookup_insert_eq by done. simpl.
    by rewrite bool_decide_eq_false_2.
  - rewrite lookup_insert_eq. simpl. by rewrite bool_decide_eq_false_2.
Qed.


Lemma parseArgs_keeps_two_words_witness :
  parseArgs ["node"; "ctm.js"; "play"; "a.ctm"; "b.ctm"] !! "target"
  = Some (Text "a.ctm").
Proof.
  rewrite (parseArgs_keeps_two_words "node" "ctm.js" "play" "a.ctm"
                                     ["b.ctm"]).
  - apply lookup_insert_eq.
  - done.
  - done.
  - repeat constructor.
Defined.

End CliFacts.

(** ** A whole play *)

Module PlayRunFacts.
Import DatabaseWrapper PlaybackServer Scenario Notions SqlFacts.

Lemma ticks_S n h ws : ticks (S n) h ws = ticks n h (tick h ws).
Proof. done. Qed.

Lemma due_are_due rest t e :
  e ∈ due rest t → (inject_Z (ev_timestamp e) <= t)%Q.
Proof.
  induction rest as [|e0 rest IH]; simpl; [by intros ?%not_elem_of_nil|].
  destruct (Qle_bool _ _) eqn:Hle; [|by intros ?%not_elem_of_nil].
  intros [->|He]%elem_of_cons; [by apply Qle_bool_iff|auto].
Qed.


Lemma tick_messages h ws c :
  intervals ws !! h = Some c →
  let out := due (drop (eventIndex c) (cl_events c)) (currentTime c) in
  (intervals (tick h ws) !! h = None
   ∧ sent (tick h ws) = sent ws ++ (event <$> out) ++ [playback_complete])
  ∨ (∃ c',
       intervals (tick h ws) !! h = Some c'
       ∧ eventIndex c' = (eventIndex c + length out)%nat
       ∧ cl_events c' = cl_events c
       ∧ sent (tick h ws) = sent ws ++ (event <$> out)).
Proof.
  intros Hc out. unfold tick. rewrite Hc. fold out.
  destruct (negb _ || _).
  - left. split; [simpl; apply lookup_delete_eq|].
    simpl. by rewrite <- app_assoc.
  - right. eexists. split; [simpl; apply lookup_insert_eq|done].
Qed.

(** X17.  The messages of one interval: events of its list, from its cursor on
    and in the list's order, then [playback_complete] once, exactly when
    the interval has ended; nothing after that. *)
Theorem playback_message_shape n h ws c :
  intervals ws !! h = Some c →
  ∃ k,
    (is_Some (intervals (ticks n h ws) !! h)
     ∧ sent (ticks n h ws)
       = sent ws ++ (event <$> take k (drop (eventIndex c) (cl_events c))))
    ∨ (intervals (ticks n h ws) !! h = None
       ∧ sent (ticks n h ws)
         = sent ws ++ (event <$> take k (drop (eventIndex c) (cl_events c)))
                   ++ [playback_complete]).
Proof.
  revert ws c. induction n as [|n IH]; intros ws c Hc.
  - exists 0%nat. left. cbn [ticks take fmap list_fmap].
    split; [by rewrite Hc|]. by rewrite app_nil_r.
  - rewrite ticks_S.
    pose proof (PlaybackFacts.due_prefix
                  (drop (eventIndex c) (cl_events c)) (currentTime c))
      as Hout.
    destruct (tick_messages h ws c Hc)
      as [[Hgone Hsent]|(c' & Hc' & Hi & He & Hsent)].
    + eexists. right. rewrite PlaybackFacts.ticks_cleared by done.
      split; [done|]. rewrite Hsent. by rewrite Hout at 1.
    + destruct (IH (tick h ws) c' Hc') as [k Hk].
      rewrite Hi, He, Hsent in Hk.
      exists (length (due (drop (eventIndex c) (cl_events c))
                          (currentTime c)) + k)%nat.
      rewrite <- take_take_drop, drop_drop, <- Hout, fmap_app.
      destruct Hk as [[Hstill Hk]|[Hend Hk]]; [left|right];
        (split; [done|]); rewrite Hk; by rewrite <- !app_assoc.
Qed.

Lemma playback_message_shape_witness :
  ∃ k,
    (is_Some (intervals (ticks 2 0 short_playing) !! 0%nat)
     ∧ sent (ticks 2 0 short_playing)
       = [] ++ (event <$> take k (drop 0 (getEventsInRange short_session 1
                                                            1000 1150))))
    ∨ (intervals (ticks 2 0 short_playing) !! 0%nat = None
       ∧ sent (ticks 2 0 short_playing)
         = [] ++ (event <$> take k (drop 0 (getEventsInRange short_session 1
                                                              1000 1150)))
              ++ [playback_complete]).
Proof.
  apply (playback_message_shape 2 0 short_playing
           {| cl_events := getEventsInRange short_session 1 1000 1150;
              cl_endTime := 1150; cl_speed := 1; currentTime := inject_Z 1000;
              eventIndex := 0 |}).
  reflexivity.
Defined.








End PlayRunFacts.

(** ** Seek, repeated play and the session played *)

Module ControlFacts.
Import JS DatabaseWrapper PlaybackServer History Scenario Notions SqlFacts.

Lemma handles_fresh_connect : handles_fresh connect.
Proof. intros h [c Hc]. simpl in Hc. by rewrite lookup_empty in Hc. Qed.

Lemma handles_fresh_handlePlay db now ws startTime speed :
  handles_fresh ws → handles_fresh (handlePlay db now ws startTime speed).
Proof.
  intros Hws h. unfold handlePlay.
  destruct (latest_session db); [|apply Hws]. simpl.
  destruct (decide (h = next_handle ws)) as [->|Hne]; [lia|].
  rewrite lookup_insert_ne by done. intros Hh%Hws. lia.
Qed.

Lemma handles_fresh_handlePause ws :
  handles_fresh ws → handles_fresh (handlePause ws).
Proof.
  intros Hws h. unfold handlePause.
  destruct (playInterval ws) as [h'|]; [|apply Hws]. simpl.
  destruct (decide (h' = h)) as [->|Hne].
  - rewrite lookup_delete_eq. by intros [? ?].
  - rewrite lookup_delete_ne by done. apply Hws.
Qed.

Lemma handles_fresh_tick h ws : handles_fresh ws → handles_fresh (tick h ws).
Proof.
  intros Hws h'. unfold tick.
  destruct (intervals ws !! h) as [c|] eqn:Hc; [|apply Hws].
  assert (h < next_handle ws)%nat as Hh by (apply Hws; by rewrite Hc).
  destruct (negb _ || _); simpl.
  - destruct (decide (h = h')) as [->|Hne];
      [rewrite lookup_delete_eq; by intros [? ?]|].
    rewrite lookup_delete_ne by done.
    destruct (decide (h = h')) as [->|Hne']; [done|].
    rewrite lookup_insert_ne by done. apply Hws.
  - destruct (decide (h = h')) as [->|Hne]; [done|].
    rewrite lookup_insert_ne by done. apply Hws.
Qed.

(** X19.  A second play does not stop the first.  When an interval is running
    and [handlePlay] is called again, the running interval stays
    scheduled with its cursor; a following [handlePause] cancels only the
    newer interval and forgets the handle, so no later pause reaches the
    older one. *)
Theorem second_play_orphans_first db now ws h c startTime speed session :
  handles_fresh ws →
  intervals ws !! h = Some c →
  latest_session db = Some session →
  let paused := handlePause (handlePlay db now ws startTime speed) in
  intervals paused !! h = Some c
  ∧ playInterval paused = None
  ∧ handlePause paused = paused
  ∧ handles_fresh paused.
Proof.
  intros Hws Hc Hsession. cbv zeta.
  assert (h < next_handle ws)%nat as Hh by (apply Hws; by rewrite Hc).
  split_and!.
  - unfold handlePlay, handlePause. rewrite Hsession. simpl.
    rewrite lookup_delete_ne, lookup_insert_ne by lia. done.
  - unfold handlePlay, handlePause. by rewrite Hsession.
  - unfold handlePlay, handlePause. by rewrite Hsession.
  - by apply handles_fresh_handlePause, handles_fresh_handlePlay.
Qed.

Lemma second_play_orphans_first_witness :
  is_Some
    (intervals
       (handlePause
          (handlePlay long_session 9000
             (handlePlay long_session 9000 connect 1000 None) 1000 None))
       !! 0%nat).
Proof.
  eexists.
  eapply (second_play_orphans_first long_session 9000
            (handlePlay long_session 9000 connect 1000 None) 0).
  - apply handles_fresh_handlePlay, handles_fresh_connect.
  - reflexivity.
  - reflexivity.
Defined.

(** X20.  [handleSeek] only answers.  It sends one [seek_result] holding the
    events of session 1 within 1000 ms of the timestamp, and leaves the
    intervals and the stored handle as they are: a play in progress keeps
    running and sends the same events it would have sent without the
    seek. *)
Theorem seek_leaves_playback db ws timestamp h :
  intervals (handleSeek db ws timestamp) = intervals ws
  ∧ playInterval (handleSeek db ws timestamp) = playInterval ws
  ∧ (∃ evs,
       sent (handleSeek db ws timestamp)
       = sent ws ++ [seek_result timestamp evs]
       ∧ ∀ e, e ∈ evs
              ↔ e ∈ events db ∧ ev_session e = 1
                ∧ timestamp - 1000 ≤ ev_timestamp e ≤ timestamp + 1000)
  ∧ intervals (tick h (handleSeek db ws timestamp)) = intervals (tick h ws)
  ∧ emitted (tick h (handleSeek db ws timestamp)) = emitted (tick h ws).
Proof.
  split_and!; try done.
  - eexists. split; [done|]. intros e.
    rewrite EventLogFacts.getEventsInRange_perm, list_elem_of_filter.
    tauto.
  - unfold tick, handleSeek, send. simpl.
    destruct (intervals ws !! h) as [c|]; [|done].
    by destruct (negb _ || _).
  - unfold tick, handleSeek, send. simpl.
    destruct (intervals ws !! h) as [c|].
    + destruct (negb _ || _); unfold emitted, send, clearInterval; simpl;
        rewrite !omap_app; simpl; by rewrite !app_nil_r.
    + unfold emitted. simpl. rewrite omap_app. simpl. by rewrite app_nil_r.
Qed.

Lemma last_by_increasing {A} (key : A → Z) (l : list A) n :
  key <$> l = seqZ 1 n →
  Sql.last_by (λ a b, bool_decide (key a ≤ key b)) l = last l.
Proof.
  revert n. induction l as [|r l IH] using rev_ind; intros n Hkeys; [done|].
  rewrite LookupFacts.last_by_snoc, last_snoc.
  assert (0 < n) as Hn.
  { destruct (decide (0 < n)); [done|].
    rewrite seqZ_nil in Hkeys by lia. by destruct l. }
  replace n with ((n - 1) + 1) in Hkeys by lia.
  rewrite StoreFacts.seqZ_snoc, fmap_app in Hkeys by lia.
  apply app_inj_tail in Hkeys as [Hl Hr].
  rewrite (IH _ Hl).
  destruct (last l) as [b|] eqn:Hb; [|done].
  rewrite bool_decide_eq_true_2; [done|].
  apply last_Some_elem_of in Hb.
  assert (key b ∈ seqZ 1 (n - 1)) as Hin
    by (rewrite <- Hl; by apply list_elem_of_fmap_2).
  apply elem_of_seqZ in Hin. lia.
Qed.

Section WithHash.
Variable sha256_hex : list N → string.

(** X21.  Play and seek look at different sessions.  Over every history of the
    store, [handlePlay] plays the session created last, while
    [handleSeek] always reads session 1, the session created first. *)
Theorem play_takes_newest_session cs :
  latest_session (run sha256_hex cs) = last (sessions (run sha256_hex cs))
  ∧ session_id <$> head (sessions (run sha256_hex cs))
    = (if sessions (run sha256_hex cs) is [] then None else Some 1).
Proof.
  destruct (StoreFacts.run_numbered sha256_hex cs) as ([Hn Hids] & _).
  split.
  - unfold latest_session. by eapply last_by_increasing.
  - destruct (sessions (run sha256_hex cs)) as [|s0 ss]; [done|].
    simpl in *.
    destruct (decide (0 < sessions_seq (run sha256_hex cs))) as [Hpos|Hz].
    + rewrite seqZ_cons in Hids by done. by injection Hids as -> _.
    + rewrite seqZ_nil in Hids by lia. done.
Qed.
End WithHash.

End ControlFacts.

(** ** The recorder *)

Module RecorderFacts.
Import JS Sql DatabaseWrapper Daemon DaemonHandlers History Scenario Notions
       SqlFacts.



Section WithHash.
Variable sha256_hex : list N → string.


Lemma handle_step dbId db n :
  ∃ new_events new_snapshots,
    events (handle sha256_hex dbId db n) = events db ++ new_events
    ∧ file_snapshots (handle sha256_hex dbId db n)
      = file_snapshots db ++ new_snapshots
    ∧ diffs (handle sha256_hex dbId db n) = diffs db
    ∧ sessions (handle sha256_hex dbId db n) = sessions db
    ∧ Forall (λ e, ev_session e = dbId ∧ ev_type e = "file_edit"
                   ∧ ev_sequence e = 0) new_events
    ∧ Forall (λ r, snap_session r = dbId
                   ∧ Z.of_nat (length (content r)) < 100000
                   ∧ ∃ e, e ∈ new_events ∧ ev_source e = snap_path r)
             new_snapshots
    ∧ (length new_snapshots ≤ length new_events ≤ 1)%nat.
Proof.
  assert (∃ new_events new_snapshots : list _,
            events db = events db ++ new_events
            ∧ file_snapshots db = file_snapshots db ++ new_snapshots
            ∧ diffs db = diffs db ∧ sessions db = sessions db
            ∧ Forall (λ e, ev_session e = dbId ∧ ev_type e = "file_edit"
                           ∧ ev_sequence e = 0) new_events
            ∧ Forall (λ r, snap_session r = dbId
                           ∧ Z.of_nat (length (content r)) < 100000
                           ∧ ∃ e, e ∈ new_events
                                  ∧ ev_source e = snap_path r)
                     new_snapshots
            ∧ (length new_snapshots ≤ length new_events ≤ 1)%nat) as Hsame.
  { exists [], []. rewrite !app_nil_r. split_and!; try done; simpl; lia. }
  destruct n as [now1 now2 f|now1 now2 f|now p];
    cbn [handle]; unfold handleFileChange, handleFileAdd, handleFileDelete.
  - case_bool_decide; [done|]. destruct (_ && _); [done|].
    case_bool_decide as Hlen.
    + eexists [_], [_]. cbn [addFileSnapshot addEvent fst events
        file_snapshots diffs sessions].
      split_and!; try done.
      * by repeat constructor.
      * repeat constructor; [done|]. eexists. split; [left|done].
    + eexists [_], []. cbn [addEvent fst events file_snapshots diffs
        sessions]. rewrite app_nil_r.
      split_and!; try done; [by repeat constructor|simpl; lia].
  - case_bool_decide; [done|]. destruct (_ && _); [done|].
    case_bool_decide as Hlen.
    + eexists [_], [_]. cbn [addFileSnapshot addEvent fst events
        file_snapshots diffs sessions].
      split_and!; try done.
      * by repeat constructor.
      * repeat constructor; [done|]. eexists. split; [left|done].
    + eexists [_], []. cbn [addEvent fst events file_snapshots diffs
        sessions]. rewrite app_nil_r.
      split_and!; try done; [by repeat constructor|simpl; lia].
  - eexists [_], []. cbn [addEvent fst events file_snapshots diffs sessions].
    rewrite app_nil_r.
    split_and!; try done; [by repeat constructor|simpl; lia].
Qed.

(** X23.  What the recorder writes.  Whatever notices it handles, it only
    appends: at most one event per notice, each for its own session, of
    type [file_edit] and with sequence number 0; at most one snapshot per
    event, each for its own session, of a content shorter than 100000
    code units and for the path of one of those events.  It stores no
    diff and changes no session row. *)
Theorem recorder_writes dbId db ns :
  ∃ new_events new_snapshots,
    events (record sha256_hex dbId db ns) = events db ++ new_events
    ∧ file_snapshots (record sha256_hex dbId db ns)
      = file_snapshots db ++ new_snapshots
    ∧ diffs (record sha256_hex dbId db ns) = diffs db
    ∧ sessions (record sha256_hex dbId db ns) = sessions db
    ∧ Forall (λ e, ev_session e = dbId ∧ ev_type e = "file_edit"
                   ∧ ev_sequence e = 0) new_events
    ∧ Forall (λ r, snap_session r = dbId
                   ∧ Z.of_nat (length (content r)) < 100000
                   ∧ ∃ e, e ∈ new_events ∧ ev_source e = snap_path r)
             new_snapshots
    ∧ (length new_snapshots ≤ length new_events ≤ length ns)%nat.
Proof.
  induction ns as [|n ns IH] using rev_ind.
  - exists [], []. rewrite !app_nil_r. split_and!; try done; simpl; lia.
  - unfold record in *. rewrite foldl_app. cbn [foldl].
    destruct IH as (es & ss & He & Hs & Hd & Hse & Hes & Hss & Hlen).
    destruct (handle_step dbId (foldl (handle sha256_hex dbId) db ns) n)
      as (es' & ss' & He' & Hs' & Hd' & Hse' & Hes' & Hss' & Hlen').
    exists (es ++ es'), (ss ++ ss').
    rewrite He', Hs', Hd', Hse', He, Hs, <- !app_assoc.
    split_and!; try done.
    + by apply Forall_app.
    + apply Forall_app. split.
      * eapply Forall_impl; [exact Hss|].
        intros r (? & ? & e & He0 & ?). split_and!; [done|done|].
        exists e. split; [|done]. apply elem_of_app. by left.
      * eapply Forall_impl; [exact Hss'|].
        intros r (? & ? & e & He0 & ?). split_and!; [done|done|].
        exists e. split; [|done]. apply elem_of_app. by right.
    + rewrite !length_app. lia.
    + rewrite !length_app. simpl. lia.
Qed.

Lemma lookup_frame db db' added sessionId filePath timestamp :
  file_snapshots db' = file_snapshots db ++ added →
  Forall (λ r, snap_path r ≠ filePath) added →
  diffs db' = diffs db →
  getFileStateAtTime db' sessionId filePath timestamp
  = getFileStateAtTime db sessionId filePath timestamp.
Proof.
  intros Hs Hadded Hd. unfold getFileStateAtTime.
  rewrite Hs, Hd, filter_app, (filter_none _ added), app_nil_r; [done|].
  intros r Hr (_ & Hp & _). rewrite Forall_forall in Hadded.
  by apply (Hadded r).
Qed.

Lemma handle_frame dbId db n filePath :
  leaves_alone filePath n →
  ∃ added,
    file_snapshots (handle sha256_hex dbId db n) = file_snapshots db ++ added
    ∧ Forall (λ r, snap_path r ≠ filePath) added
    ∧ diffs (handle sha256_hex dbId db n) = diffs db.
Proof.
  intros Hn.
  assert (∃ added, file_snapshots db = file_snapshots db ++ added
                   ∧ Forall (λ r, snap_path r ≠ filePath) added
                   ∧ diffs db = diffs db) as Hsame
    by (exists []; by rewrite app_nil_r).
  destruct n as [now1 now2 f|now1 now2 f|now p];
    cbn [handle]; unfold handleFileChange, handleFileAdd, handleFileDelete;
    [| |exact Hsame].
  - case_bool_decide; [done|]. destruct (_ && _); [done|].
    case_bool_decide; [|exact Hsame].
    eexists [_]. split_and!; [done| |done]. by repeat constructor.
  - case_bool_decide; [done|]. destruct (_ && _); [done|].
    case_bool_decide; [|exact Hsame].
    eexists [_]. split_and!; [done| |done]. by repeat constructor.
Qed.

(** X24.  The recorder changes what a file reconstructs to only when that file
    changes or is added.  Over any notices that are not a change or an
    addition of the path, its own deletion included, [getFileStateAtTime]
    for the path answers as before at every target time: a deleted file
    still reconstructs to its last snapshot. *)
Theorem recorder_frame dbId db ns sessionId filePath timestamp :
  Forall (leaves_alone filePath) ns →
  getFileStateAtTime (record sha256_hex dbId db ns) sessionId filePath
                     timestamp
  = getFileStateAtTime db sessionId filePath timestamp.
Proof.
  induction ns as [|n ns IH] using rev_ind; [done|].
  intros [Hns Hn]%Forall_app. apply (proj1 (Forall_singleton _ _)) in Hn.
  unfold record in *. rewrite foldl_app. cbn [foldl].
  destruct (handle_frame dbId (foldl (handle sha256_hex dbId) db ns) n
                         filePath Hn) as (added & Hs & Hadded & Hd).
  rewrite (lookup_frame _ _ _ _ _ _ Hs Hadded Hd). by apply IH.
Qed.
End WithHash.


Lemma recorder_frame_witness :
  getFileStateAtTime
    (record length_digest 1 (x_then_y_then_z length_digest)
            [Unlink 2600 "a.js"]) 1 "a.js" 2700
  = getFileStateAtTime (x_then_y_then_z length_digest) 1 "a.js" 2700.
Proof.
  apply (recorder_frame length_digest). by repeat constructor.
Defined.

End RecorderFacts.
